(** * Grover's algorithm notebook: circuit construction and ideal gate semantics

    The notebook builds a 2-qubit Grover circuit through the SDK's
    [QuantumCircuit] methods and hands it to the SDK's simulator.  This
    development embeds

    - the circuit object of the SDK as a record holding the list of
      appended instructions, kept in a store of objects addressed by
      reference (the notebook mutates and aliases circuit objects);
    - the notebook's own functions [initialize_s] and [diffuser] and its
      cells, as programs in a state-and-exception monad over that store;
    - the ideal (exact) action of the gates on a statevector, indexed as the
      SDK indexes it: amplitude [i] belongs to the basis state whose qubit
      [q] is bit [q] of [i].

    Amplitudes are exact complex numbers over the real numbers of the
    standard library; the simulator's floating-point rounding is not
    modelled. *)

From Stdlib Require Import Reals Lra Lia List ZArith String Bool PeanoNat Arith.
From Stdlib Require Import FunctionalExtensionality Permutation.
Import ListNotations.

Local Open Scope R_scope.

(** ** Complex amplitudes *)

Module Amplitude.

Record C : Type := mkC { re : R; im : R }.

Definition Czero : C := mkC 0 0.
Definition Cone : C := mkC 1 0.
Definition RtoC (x : R) : C := mkC x 0.
Definition Cplus (a b : C) : C := mkC (re a + re b) (im a + im b).
Definition Copp (a : C) : C := mkC (- re a) (- im a).
Definition Cminus (a b : C) : C := Cplus a (Copp b).
Definition Cmult (a b : C) : C :=
  mkC (re a * re b - im a * im b) (re a * im b + im a * re b).
Definition Cscale (x : R) (a : C) : C := mkC (x * re a) (x * im a).

(** Squared modulus: the probability carried by an amplitude. *)
Definition Cnorm2 (a : C) : R := re a * re a + im a * im a.

End Amplitude.
Export Amplitude.

(** The Hadamard coefficient [1/sqrt 2]. *)
Definition inv_sqrt2 : R := / sqrt 2.

(** ** Statevectors and the ideal action of the gates

    A statevector is the array of amplitudes the simulator returns, read as a
    function from the basis index.  The SDK numbers basis states
    little-endian: qubit [q] is bit [q] of the index, so [|11>] on two qubits
    is index 3 and [|01>] (qubit 0 set) is index 1. *)

Definition State : Type := nat -> C.

(** Index of the basis state that differs from [i] on qubit [q] only. *)
Definition flipbit (i q : nat) : nat :=
  if Nat.testbit i q then Nat.clearbit i q else Nat.setbit i q.

(** Hadamard on qubit [q]: [|0> -> (|0>+|1>)/sqrt 2], [|1> -> (|0>-|1>)/sqrt 2]. *)
Definition apply_h (q : nat) (psi : State) : State :=
  fun i =>
    Cscale inv_sqrt2
      (Cplus (psi (Nat.clearbit i q))
             (if Nat.testbit i q then Copp (psi (Nat.setbit i q))
              else psi (Nat.setbit i q))).

(** Pauli-X on qubit [q]: exchanges the two values of the qubit. *)
Definition apply_x (q : nat) (psi : State) : State :=
  fun i => psi (flipbit i q).

(** Pauli-Z on qubit [q]: negates the amplitudes in which the qubit is set. *)
Definition apply_z (q : nat) (psi : State) : State :=
  fun i => if Nat.testbit i q then Copp (psi i) else psi i.

(** Controlled-Z on qubits [a] and [b]: negates the amplitudes in which both
    are set. *)
Definition apply_cz (a b : nat) (psi : State) : State :=
  fun i => if Nat.testbit i a && Nat.testbit i b then Copp (psi i) else psi i.

(** Multi-controlled X (Toffoli): flips the target where every control is
    set. *)
Definition apply_mcx (controls : list nat) (target : nat) (psi : State) : State :=
  fun i => if forallb (Nat.testbit i) controls then psi (flipbit i target) else psi i.

(** The computational basis state of index [k], and the all-zero state every
    circuit starts in. *)
Definition basis_state (k : nat) : State :=
  fun i => if Nat.eqb i k then Cone else Czero.

Definition zero_state : State := basis_state 0.

(** Probability of reading basis state [i] when every qubit is measured. *)
Definition probability (psi : State) (i : nat) : R := Cnorm2 (psi i).

(** ** Operators on statevectors used to describe the diffuser *)

(** Gates applied to the listed qubits, first to last. *)
Definition apply_each (g : nat -> State -> State) (qs : list nat) (psi : State) : State :=
  fold_left (fun s q => g q s) qs psi.

Definition h_all (n : nat) : State -> State := apply_each apply_h (seq 0 n).
Definition x_all (n : nat) : State -> State := apply_each apply_x (seq 0 n).

(** A state that is [f] where qubit [k] is set and [g] where it is clear. *)
Definition sel (k : nat) (f g : State) : State :=
  fun i => if Nat.testbit i k then f i else g i.

(** [all_set n i]: qubits [0..n-1] are all set in [i];
    [all_clear n i]: they are all clear. *)
Definition all_set (n i : nat) : bool := forallb (Nat.testbit i) (seq 0 n).
Definition all_clear (n i : nat) : bool :=
  forallb (fun q => negb (Nat.testbit i q)) (seq 0 n).

(** Negate the amplitudes at the indices selected by [p]. *)
Definition negate_where (p : nat -> bool) (psi : State) : State :=
  fun i => if p i then Copp (psi i) else psi i.

(** The index with qubits [0..n-1] flipped. *)
Fixpoint flip_low (n i : nat) : nat :=
  match n with
  | O => i
  | S k => flip_low k (flipbit i k)
  end.

(** The mean of the amplitudes over the values of qubits [0..n-1], the other
    bits of the index staying as in [i]. *)
Fixpoint avg (n : nat) (psi : State) (i : nat) : C :=
  match n with
  | O => psi i
  | S k => Cscale (/ 2) (Cplus (avg k psi (Nat.clearbit i k)) (avg k psi (Nat.setbit i k)))
  end.

(** [Csum f m] is the sum of [f 0 .. f (m-1)]. *)
Fixpoint Csum (f : nat -> C) (m : nat) : C :=
  match m with
  | O => Czero
  | S m' => Cplus (Csum f m') (f m')
  end.

(** The mean of the [2^n] amplitudes of an [n]-qubit statevector. *)
Definition mean (n : nat) (psi : State) : C :=
  Cscale (/ 2 ^ n) (Csum psi (2 ^ n)).

Definition Cconj (a : C) : C := mkC (re a) (- im a).

(** The uniform superposition [|s>] of [n] qubits and the inner product
    [<phi|psi>] of two [n]-qubit statevectors. *)
Definition uniform_superposition (n : nat) : State :=
  fun i => if (i <? 2 ^ n)%nat then RtoC (inv_sqrt2 ^ n) else Czero.

Definition inner_product (n : nat) (phi psi : State) : C :=
  Csum (fun j => Cmult (Cconj (phi j)) (psi j)) (2 ^ n).

(** The operator [2|s><s| - I] written out: [psi] is sent to
    [2 <s|psi> |s> - psi]. *)
Definition inversion_about_mean (n : nat) (psi : State) : State :=
  fun i =>
    Cminus
      (Cscale 2 (Cmult (inner_product n (uniform_superposition n) psi)
                       (uniform_superposition n i)))
      (psi i).

(** ** The SDK's circuit objects

    The notebook only builds circuits; every operation below is a method of
    the SDK's [QuantumCircuit] or a function of the SDK, modelled by what it
    does to the circuit object.  Instruction names follow the SDK's classes. *)

Local Close Scope R_scope.

#[local] Set Warnings "-register-all".

Inductive Instruction : Type :=
| HGate (q : nat)
| XGate (q : nat)
| ZGate (q : nat)
| CZGate (control target : nat)
| MCXGate (controls : list nat) (target : nat)
| CustomGate (name : string) (definition : list Instruction) (qargs : list nat)
| SaveStatevector
| Barrier (qargs : list nat)
| Measure (q clbit : nat).

(** A gate object, as [QuantumCircuit.to_gate] returns it. *)
Record Gate : Type := mkGate {
  gate_name : string;
  gate_num_qubits : nat;
  gate_definition : list Instruction
}.

Record QuantumCircuit : Type := mkCircuit {
  num_qubits : nat;
  num_clbits : nat;
  data : list Instruction
}.

(** Unitary gates, as opposed to the other instructions a circuit may hold. *)
Definition is_gate (i : Instruction) : bool :=
  match i with
  | HGate _ | XGate _ | ZGate _ | CZGate _ _ | MCXGate _ _ | CustomGate _ _ _ => true
  | SaveStatevector | Barrier _ | Measure _ _ => false
  end.

(** The five kinds of gate the interface description lists. *)
Inductive GateKind : Type :=
| Hadamard | PauliX | PauliZ | ControlledZ | MultiControlledToffoli.

Definition gate_kind (i : Instruction) : option GateKind :=
  match i with
  | HGate _ => Some Hadamard
  | XGate _ => Some PauliX
  | ZGate _ => Some PauliZ
  | CZGate _ _ => Some ControlledZ
  | MCXGate _ _ => Some MultiControlledToffoli
  | _ => None
  end.

(** Objects live in a store and are addressed by reference; the notebook's
    variables hold references. *)
Definition ref : Type := nat.

Inductive Exn : Type :=
| CircuitError (msg : string)
| QiskitError (msg : string)
| AttributeError (msg : string)
| NameError (name : string).

(** What the notebook does to the outside, in order. *)
Inductive Event : Type :=
| Appended (circuit : ref) (i : Instruction)
| Simulated (instructions : list Instruction)
| Displayed (what : string).

Record World : Type := mkWorld {
  objects : list QuantumCircuit;
  trace : list Event
}.

Definition empty_world : World := mkWorld [] [].

Inductive Result (A : Type) : Type :=
| Ok (a : A)
| Raise (e : Exn).
Arguments Ok {A} a.
Arguments Raise {A} e.

(** State-and-exception monad: effects on the store persist when an exception
    is raised, as they do between notebook cells. *)
Definition M (A : Type) : Type := World -> Result A * World.

Definition ret {A} (a : A) : M A := fun w => (Ok a, w).

Definition raise {A} (e : Exn) : M A := fun w => (Raise e, w).

Definition bind {A B} (m : M A) (f : A -> M B) : M B :=
  fun w =>
    match m w with
    | (Ok a, w') => f a w'
    | (Raise e, w') => (Raise e, w')
    end.

Notation "x <- m ;; k" := (bind m (fun x => k))
  (at level 61, m at next level, right associativity).
Notation "m ;;; k" := (bind m (fun _ => k))
  (at level 61, right associativity).

(** [for x in xs: body x] *)
Fixpoint for_each {A} (xs : list A) (body : A -> M unit) : M unit :=
  match xs with
  | [] => ret tt
  | x :: rest => body x ;;; for_each rest body
  end.

Fixpoint update {A} (l : list A) (k : nat) (x : A) : list A :=
  match l, k with
  | [], _ => []
  | _ :: t, O => x :: t
  | a :: t, S k' => a :: update t k' x
  end.

Definition lookup (c : ref) : M QuantumCircuit :=
  fun w =>
    match nth_error (objects w) c with
    | Some qc => (Ok qc, w)
    | None => (Raise (AttributeError "not a circuit"%string), w)
    end.

Definition allocate (qc : QuantumCircuit) : M ref :=
  fun w => (Ok (List.length (objects w)), mkWorld (objects w ++ [qc]) (trace w)).

Definition log (e : Event) : M unit :=
  fun w => (Ok tt, mkWorld (objects w) (trace w ++ [e])).

(** Appending one instruction mutates the circuit object in place. *)
Definition append_instruction (c : ref) (i : Instruction) : M unit :=
  qc <- lookup c ;;
  (fun w =>
     (Ok tt,
      mkWorld (update (objects w) c
                 (mkCircuit (num_qubits qc) (num_clbits qc) (data qc ++ [i])))
              (trace w ++ [Appended c i]))).

(** A qubit argument is a Python integer indexing the circuit's qubit list:
    negative integers count from the end, anything outside raises. *)
Definition resolve_qubit (nq : nat) (q : Z) : option nat :=
  if ((0 <=? q) && (q <? Z.of_nat nq))%Z then Some (Z.to_nat q)
  else if ((- Z.of_nat nq <=? q) && (q <? 0))%Z then Some (Z.to_nat (Z.of_nat nq + q))
  else None.

Fixpoint resolve_qubits (nq : nat) (qs : list Z) : option (list nat) :=
  match qs with
  | [] => Some []
  | q :: rest =>
      match resolve_qubit nq q, resolve_qubits nq rest with
      | Some k, Some ks => Some (k :: ks)
      | _, _ => None
      end
  end.

Definition qubit_arg (c : ref) (q : Z) : M nat :=
  qc <- lookup c ;;
  match resolve_qubit (num_qubits qc) q with
  | Some k => ret k
  | None => raise (CircuitError "Index out of range."%string)
  end.

Definition qubit_args (c : ref) (qs : list Z) : M (list nat) :=
  qc <- lookup c ;;
  match resolve_qubits (num_qubits qc) qs with
  | Some ks => ret ks
  | None => raise (CircuitError "Index out of range."%string)
  end.

(** A gate method takes one qubit index or a list of them; a list broadcasts
    the gate, one instruction per qubit.  The methods of [QuantumCircuit]
    are collected in module [QC]: [QC.h c q] stands for [c.h(q)]. *)
Module QC.

Inductive QubitSpec : Type :=
| QInt (q : Z)
| QList (qs : list Z).

Definition qubit_spec_args (c : ref) (s : QubitSpec) : M (list nat) :=
  match s with
  | QInt q => k <- qubit_arg c q ;; ret [k]
  | QList qs => qubit_args c qs
  end.

(** [QuantumCircuit(n)] *)
Definition new_circuit (n : Z) : M ref :=
  if (n <? 0)%Z
  then raise (CircuitError "Register size must be non-negative"%string)
  else allocate (mkCircuit (Z.to_nat n) 0 []).

(** [circuit.h(q)], [circuit.x(q)], [circuit.z(q)] *)
Definition h (c : ref) (s : QubitSpec) : M unit :=
  ks <- qubit_spec_args c s ;;
  for_each ks (fun k => append_instruction c (HGate k)).

Definition x (c : ref) (s : QubitSpec) : M unit :=
  ks <- qubit_spec_args c s ;;
  for_each ks (fun k => append_instruction c (XGate k)).

Definition z (c : ref) (s : QubitSpec) : M unit :=
  ks <- qubit_spec_args c s ;;
  for_each ks (fun k => append_instruction c (ZGate k)).

Fixpoint has_duplicates (l : list nat) : bool :=
  match l with
  | [] => false
  | a :: t => existsb (Nat.eqb a) t || has_duplicates t
  end.

(** [circuit.cz(a, b)] *)
Definition cz (c : ref) (a b : Z) : M unit :=
  ka <- qubit_arg c a ;;
  kb <- qubit_arg c b ;;
  if Nat.eqb ka kb
  then raise (CircuitError "duplicate qubit arguments"%string)
  else append_instruction c (CZGate ka kb).

(** [circuit.mct(controls, target)]: the gate needs at least one control and
    pairwise distinct qubits. *)
Definition mct (c : ref) (controls : list Z) (target : Z) : M unit :=
  match controls with
  | [] =>
      raise (CircuitError
               "The number of control qubits must be in `[1, num_qubits-1]`"%string)
  | _ :: _ =>
      ks <- qubit_args c controls ;;
      t <- qubit_arg c target ;;
      if has_duplicates (ks ++ [t])
      then raise (CircuitError "duplicate qubit arguments"%string)
      else append_instruction c (MCXGate ks t)
  end.

(** [circuit.to_gate()]: only a circuit of gates, without classical bits,
    converts to a gate. *)
Definition to_gate (c : ref) : M Gate :=
  qc <- lookup c ;;
  if negb (Nat.eqb (num_clbits qc) 0)
  then raise (QiskitError "Circuit with classical bits cannot be converted to gate."%string)
  else if forallb is_gate (data qc)
  then ret (mkGate "circuit"%string (num_qubits qc) (data qc))
  else raise (QiskitError
                "One or more instructions cannot be converted to a gate."%string).

(** [gate.name = name] *)
Definition set_name (g : Gate) (name : string) : Gate :=
  mkGate name (gate_num_qubits g) (gate_definition g).

(** [circuit.append(gate, qargs)] *)
Definition append (c : ref) (g : Gate) (qargs : list Z) : M unit :=
  ks <- qubit_args c qargs ;;
  if negb (Nat.eqb (List.length ks) (gate_num_qubits g))
  then raise (CircuitError
                "The amount of qubit arguments does not match the gate expectation."%string)
  else if has_duplicates ks
  then raise (CircuitError "duplicate qubit arguments"%string)
  else append_instruction c (CustomGate (gate_name g) (gate_definition g) ks).

(** [circuit.copy()]: a new object with the same contents. *)
Definition copy (c : ref) : M ref :=
  qc <- lookup c ;;
  allocate qc.

(** [circuit.save_statevector()] *)
Definition save_statevector (c : ref) : M unit :=
  append_instruction c SaveStatevector.

(** [circuit.measure_all()]: a new classical register as wide as the circuit,
    a barrier, and one measurement per qubit. *)
Definition add_clbits (c : ref) (k : nat) : M nat :=
  qc <- lookup c ;;
  (fun w =>
     (Ok (num_clbits qc),
      mkWorld (update (objects w) c
                 (mkCircuit (num_qubits qc) (num_clbits qc + k) (data qc)))
              (trace w))).

Definition measure_all (c : ref) : M unit :=
  qc <- lookup c ;;
  first_clbit <- add_clbits c (num_qubits qc) ;;
  append_instruction c (Barrier (seq 0 (num_qubits qc))) ;;;
  for_each (seq 0 (num_qubits qc))
    (fun q => append_instruction c (Measure q (first_clbit + q))).

(** [circuit.draw(output='mpl')] *)
Definition draw (c : ref) : M unit :=
  _ <- lookup c ;;
  log (Displayed "circuit"%string).

End QC.

(** ** The simulator

    [assemble] snapshots a circuit; [sim.run(qobj).result()] executes the
    instructions from the all-zero state.  The simulator executes the
    standard gates only: a custom gate that was not unrolled is an invalid
    instruction and fails the run.  A failed run is reported when a result
    is read; the text of the message is abridged (the simulator's own names
    the circuit and the offending gates).  The simulator knows an instruction
    by its name: the composite gates modelled here are those whose name it
    does not know, as [U$_s$]; a composite gate renamed after a standard gate
    is outside the model.  Sampling is replaced by the distribution it
    samples from: a count stands for the share of the shots, which is exact
    when the measured state is a basis state and is the limit of the sampled
    shares otherwise. *)

Definition apply_instruction (i : Instruction) (psi : State) : option State :=
  match i with
  | HGate q => Some (apply_h q psi)
  | XGate q => Some (apply_x q psi)
  | ZGate q => Some (apply_z q psi)
  | CZGate a b => Some (apply_cz a b psi)
  | MCXGate cs t => Some (apply_mcx cs t psi)
  | _ => None
  end.

(** The unitary of a sequence of standard gates, applied left to right. *)
Fixpoint unitary (l : list Instruction) (psi : State) : option State :=
  match l with
  | [] => Some psi
  | i :: rest =>
      match apply_instruction i psi with
      | Some psi' => unitary rest psi'
      | None => None
      end
  end.

(** The unitary of a gate object is that of its definition. *)
Definition gate_unitary (g : Gate) (psi : State) : option State :=
  unitary (gate_definition g) psi.

Record SimState : Type := mkSim {
  current : State;
  saved : option State;
  measured : option State
}.

Definition execute_instruction (i : Instruction) (st : SimState) : option SimState :=
  match i with
  | SaveStatevector => Some (mkSim (current st) (Some (current st)) (measured st))
  | Barrier _ => Some st
  | Measure _ _ =>
      Some (mkSim (current st) (saved st)
              (match measured st with
               | Some m => Some m
               | None => Some (current st)
               end))
  | CustomGate _ _ _ => None
  | g =>
      match apply_instruction g (current st) with
      | Some psi => Some (mkSim psi (saved st) (measured st))
      | None => None
      end
  end.

Fixpoint execute (l : list Instruction) (st : SimState) : option SimState :=
  match l with
  | [] => Some st
  | i :: rest =>
      match execute_instruction i st with
      | Some st' => execute rest st'
      | None => None
      end
  end.

Definition Qobj : Type := QuantumCircuit.

Inductive SimResult : Type :=
| SimFailed (msg : string)
| SimDone (statevector : option State) (distribution : option (nat -> R)).

(** [assemble(circuit)] *)
Definition assemble (c : ref) : M Qobj := lookup c.

(** [sim.run(qobj).result()] *)
Definition run_result (q : Qobj) : M SimResult :=
  log (Simulated (data q)) ;;;
  match execute (data q) (mkSim zero_state None None) with
  | Some st =>
      ret (SimDone (saved st)
             (match measured st with
              | Some m => Some (probability m)
              | None => None
              end))
  | None => ret (SimFailed "contains invalid instructions for statevector method"%string)
  end.

(** [result.get_statevector()] *)
Definition get_statevector (r : SimResult) : M State :=
  match r with
  | SimFailed msg => raise (QiskitError msg)
  | SimDone (Some psi) _ => ret psi
  | SimDone None _ => raise (QiskitError "No statevector for experiment"%string)
  end.

(** [result.get_counts()] *)
Definition get_counts (r : SimResult) : M (nat -> R) :=
  match r with
  | SimFailed msg => raise (QiskitError msg)
  | SimDone _ (Some d) => ret d
  | SimDone _ None => raise (QiskitError "No counts for experiment"%string)
  end.

(** [array_to_latex(...)] and [plot_histogram(...)] only display. *)
Definition array_to_latex (psi : State) : M unit := log (Displayed "statevector"%string).

Definition plot_histogram (counts : nat -> R) : M unit := log (Displayed "histogram"%string).

(** ** The notebook's code

    The first cell only imports the SDK and picks the simulator backend; the
    functions and cells after it are embedded one by one. *)

(** [range(n)] *)
Definition range (n : Z) : list Z := map Z.of_nat (seq 0 (Z.to_nat n)).

(** [def initialize_s(circuit, qubits)]: put each qubit through a Hadamard
    gate. *)
Definition initialize_s (circuit : ref) (qubits : list Z) : M ref :=
  for_each qubits (fun q => QC.h circuit (QC.QInt q)) ;;;
  ret circuit.

(** [def diffuser(nqubits)]: builds the diffuser on a circuit of its own and
    returns it as a gate. *)
Definition diffuser (nqubits : Z) : M Gate :=
  qc <- QC.new_circuit nqubits ;;
  for_each (range nqubits) (fun qubit => QC.h qc (QC.QInt qubit)) ;;;
  for_each (range nqubits) (fun qubit => QC.x qc (QC.QInt qubit)) ;;;
  QC.h qc (QC.QInt (nqubits - 1)) ;;;
  QC.mct qc (range (nqubits - 1)) (nqubits - 1) ;;;
  QC.h qc (QC.QInt (nqubits - 1)) ;;;
  for_each (range nqubits) (fun qubit => QC.x qc (QC.QInt qubit)) ;;;
  for_each (range nqubits) (fun qubit => QC.h qc (QC.QInt qubit)) ;;;
  U_s <- QC.to_gate qc ;;
  ret (QC.set_name U_s "U$_s$"%string).

Module Notebook.

(** [n = 2; grover_circuit = QuantumCircuit(n)] *)
Definition n : Z := 2.

Definition cell_new_circuit : M ref := QC.new_circuit n.

(** [grover_circuit = initialize_s(grover_circuit, [0,1])] *)
Definition cell_initialize (grover_circuit : ref) : M ref :=
  grover_circuit' <- initialize_s grover_circuit [0; 1]%Z ;;
  QC.draw grover_circuit' ;;;
  ret grover_circuit'.

(** [grover_circuit.cz(0,1)], the oracle. *)
Definition cell_oracle (grover_circuit : ref) : M unit :=
  QC.cz grover_circuit 0 1 ;;;
  QC.draw grover_circuit.

(** The diffuser cell as it stands: the call of [diffuser] is commented out
    and the gates are applied in line. *)
Definition cell_diffuser (grover_circuit : ref) : M unit :=
  QC.h grover_circuit (QC.QList [0; 1]%Z) ;;;
  QC.z grover_circuit (QC.QList [0; 1]%Z) ;;;
  QC.cz grover_circuit 0 1 ;;;
  QC.h grover_circuit (QC.QList [0; 1]%Z) ;;;
  QC.draw grover_circuit.

(** The commented-out alternative of that cell:
    [grover_circuit.append(diffuser(n), [0,1])]. *)
Definition cell_diffuser_alternative (grover_circuit : ref) : M unit :=
  U_s <- diffuser n ;;
  QC.append grover_circuit U_s [0; 1]%Z ;;;
  QC.draw grover_circuit.

(** The statevector cell: simulate a copy that saves its statevector. *)
Definition cell_statevector (grover_circuit : ref) : M State :=
  grover_circuit_sim <- QC.copy grover_circuit ;;
  QC.save_statevector grover_circuit_sim ;;;
  qobj <- assemble grover_circuit_sim ;;
  result <- run_result qobj ;;
  statevec <- get_statevector result ;;
  array_to_latex statevec ;;;
  ret statevec.

(** The last cell: measure every qubit and plot the counts. *)
Definition cell_measure (grover_circuit : ref) : M (nat -> R) :=
  QC.measure_all grover_circuit ;;;
  qobj <- assemble grover_circuit ;;
  result <- run_result qobj ;;
  counts <- get_counts result ;;
  plot_histogram counts ;;;
  ret counts.

(** The cells up to the diffuser build the circuit. *)
Definition build_circuit : M ref :=
  grover_circuit <- cell_new_circuit ;;
  grover_circuit <- cell_initialize grover_circuit ;;
  cell_oracle grover_circuit ;;;
  cell_diffuser grover_circuit ;;;
  ret grover_circuit.

(** The notebook run top to bottom. *)
Definition run : M (State * (nat -> R)) :=
  grover_circuit <- build_circuit ;;
  statevec <- cell_statevector grover_circuit ;;
  counts <- cell_measure grover_circuit ;;
  ret (statevec, counts).

End Notebook.

Definition circuit_data (c : ref) (w : World) : list Instruction :=
  match nth_error (objects w) c with
  | Some qc => data qc
  | None => []
  end.

(** The world after the instructions [l] were appended, one by one, to the
    circuit object [c]. *)
Definition appended (c : ref) (l : list Instruction) (w : World) : World :=
  match nth_error (objects w) c with
  | Some qc =>
      mkWorld (update (objects w) c
                 (mkCircuit (num_qubits qc) (num_clbits qc) (data qc ++ l)))
              (trace w ++ map (Appended c) l)
  | None => w
  end.

(** ** The circuits of the notebook and their actions *)

(** The gates [diffuser] puts on its circuit of [n] qubits. *)
Definition diffuser_gates (n : nat) : list Instruction :=
  map HGate (seq 0 n) ++ map XGate (seq 0 n) ++
  [HGate (n - 1); MCXGate (seq 0 (n - 1)) (n - 1); HGate (n - 1)] ++
  map XGate (seq 0 n) ++ map HGate (seq 0 n).

(** The action of [diffuser_gates n], gate by gate. *)
Definition diffuser_action (n : nat) (psi : State) : State :=
  h_all n (x_all n
    (apply_h (n - 1) (apply_mcx (seq 0 (n - 1)) (n - 1) (apply_h (n - 1)
       (x_all n (h_all n psi)))))).

Definition grover_gates : list Instruction :=
  [HGate 0; HGate 1; CZGate 0 1; HGate 0; HGate 1;
   ZGate 0; ZGate 1; CZGate 0 1; HGate 0; HGate 1].

Definition grover_state : State :=
  apply_h 1 (apply_h 0 (apply_cz 0 1 (apply_z 1 (apply_z 0
    (apply_h 1 (apply_h 0 (apply_cz 0 1 (apply_h 1 (apply_h 0 zero_state))))))))).

Definition inline_diffuser_gates : list Instruction :=
  [HGate 0; HGate 1; ZGate 0; ZGate 1; CZGate 0 1; HGate 0; HGate 1].

Definition inline_diffuser_action (psi : State) : State :=
  apply_h 1 (apply_h 0 (apply_cz 0 1 (apply_z 1 (apply_z 0
    (apply_h 1 (apply_h 0 psi)))))).

(** [amps psi a b c d]: the amplitudes of [|00>], [|01>], [|10>], [|11>]
    (indices 0 to 3) in [psi]. *)
Definition amps (psi : State) (a b c d : C) : Prop :=
  psi 0%nat = a /\ psi 1%nat = b /\ psi 2%nat = c /\ psi 3%nat = d.

(** The amplitude [1/2] of the uniform superposition of two qubits. *)
Definition half : C := RtoC (/ 2).

(** ** Traces *)

(** An append is admissible when the instruction is not a gate (a
    measurement, a barrier, a save) or is a gate of one of the five listed
    kinds. *)
Definition event_ok (e : Event) : bool :=
  match e with
  | Appended _ i =>
      implb (is_gate i) (match gate_kind i with Some _ => true | None => false end)
  | _ => true
  end.

(** Whatever the world, the computation extends the trace by admissible
    events only. *)
Definition appends_listed_gates_only {A} (m : M A) : Prop :=
  forall w, exists evs,
    trace (snd (m w)) = trace w ++ evs /\ forallb event_ok evs = true.

(** The events that follow the first simulation. *)
Fixpoint after_first_simulation (tr : list Event) : list Event :=
  match tr with
  | [] => []
  | Simulated _ :: rest => rest
  | _ :: rest => after_first_simulation rest
  end.

Definition is_append_to (c : ref) (e : Event) : bool :=
  match e with
  | Appended c' _ => Nat.eqb c' c
  | _ => false
  end.

Definition appends_gate (e : Event) : bool :=
  match e with
  | Appended _ i => is_gate i
  | _ => false
  end.

(** The trace of the notebook run top to bottom; reference 0 is
    [grover_circuit], reference 1 its copy [grover_circuit_sim]. *)
Definition notebook_trace : list Event :=
  [Appended 0 (HGate 0); Appended 0 (HGate 1); Displayed "circuit";
   Appended 0 (CZGate 0 1); Displayed "circuit";
   Appended 0 (HGate 0); Appended 0 (HGate 1);
   Appended 0 (ZGate 0); Appended 0 (ZGate 1);
   Appended 0 (CZGate 0 1);
   Appended 0 (HGate 0); Appended 0 (HGate 1); Displayed "circuit";
   Appended 1 SaveStatevector;
   Simulated (grover_gates ++ [SaveStatevector]);
   Displayed "statevector";
   Appended 0 (Barrier [0; 1]); Appended 0 (Measure 0 0); Appended 0 (Measure 1 1);
   Simulated (grover_gates ++ [Barrier [0; 1]; Measure 0 0; Measure 1 1]);
   Displayed "histogram"].

(** ** The recorded outputs *)

(** The outputs recorded in the two notebook files of the repository, cell
    by cell: the notebook itself and its checkpoint copy. *)
Inductive Output : Type :=
| ExecuteResult (text : string)
| Stream (name : string)
| Error (ename : string).

Record Cell : Type := mkCell {
  cell_id : string;
  execution_count : option nat;
  outputs : list Output
}.

(** The notebook ([src/unnamed/part_000]). *)
Definition transcript : list Cell :=
  [mkCell "168f0883" (Some 1) [];
   mkCell "5007de81" (Some 2) [];
   mkCell "805c3052" (Some 3) [];
   mkCell "11c74942" (Some 4) [];
   mkCell "0e036203" (Some 5)
     [ExecuteResult "<Figure size 203.683x200.667 with 1 Axes>"];
   mkCell "24917907" (Some 6)
     [ExecuteResult "<Figure size 287.294x200.667 with 1 Axes>"];
   mkCell "75950dd6" (Some 7)
     [ExecuteResult "<Figure size 370.906x200.667 with 1 Axes>"];
   mkCell "336557d8" (Some 8) [Stream "stderr"; Error "QiskitError"];
   mkCell "6e8672a5" None []].

(** Its checkpoint copy
    ([src/.ipynb_checkpoints/grovers_algorithm-checkpoint.ipynb]). *)
Definition checkpoint_transcript : list Cell :=
  [mkCell "3676be1d" (Some 1) [];
   mkCell "1e0da1a1" (Some 2) [];
   mkCell "2cd7e5a2" (Some 3) [];
   mkCell "9007b67b" (Some 4) [];
   mkCell "d938e65f" (Some 5)
     [ExecuteResult "<Figure size 203.683x200.667 with 1 Axes>"];
   mkCell "89b09320" (Some 6)
     [ExecuteResult "<Figure size 287.294x200.667 with 1 Axes>"];
   mkCell "462ba063" (Some 7)
     [ExecuteResult "<Figure size 621.739x200.667 with 1 Axes>"];
   mkCell "e97de8d9" (Some 8)
     [ExecuteResult "<IPython.core.display.Latex object>"];
   mkCell "a3bf1666" (Some 9) [Error "NameError"]].

Definition is_error (o : Output) : bool :=
  match o with
  | Error _ => true
  | _ => false
  end.

(** The errors a transcript shows, in order. *)
Definition errors_of (t : list Cell) : list Output :=
  flat_map (fun c => filter is_error (outputs c)) t.

(** The errors recorded in the repository. *)
Definition transcript_errors : list Output :=
  errors_of (transcript ++ checkpoint_transcript).

(** The run that leaves the recorded error: the diffuser cell in its
    commented-out form, which appends the gate [U$_s$] to the circuit,
    followed by the statevector cell. *)
Definition stale_run : M State :=
  grover_circuit <- Notebook.cell_new_circuit ;;
  grover_circuit <- Notebook.cell_initialize grover_circuit ;;
  Notebook.cell_oracle grover_circuit ;;;
  Notebook.cell_diffuser_alternative grover_circuit ;;;
  Notebook.cell_statevector grover_circuit.

(** ** Further notions used in the properties *)

(** A composite gate, which the simulator does not execute. *)
Definition is_custom (i : Instruction) : bool :=
  match i with
  | CustomGate _ _ _ => true
  | _ => false
  end.

(** [Rsum f m] is the sum of [f 0 .. f (m-1)]. *)
Fixpoint Rsum (f : nat -> R) (m : nat) : R :=
  match m with
  | O => 0%R
  | S m' => (Rsum f m' + f m')%R
  end.

(** The probabilities of the [2^n] basis states of an [n]-qubit statevector,
    summed. *)
Definition total_probability (n : nat) (psi : State) : R :=
  Rsum (probability psi) (2 ^ n).

(** ** Exceptions and the calls into the SDK *)

(** The calls the notebook's code makes into the SDK. *)
Inductive sdk_call : forall A : Type, M A -> Prop :=
| call_new_circuit n : sdk_call ref (QC.new_circuit n)
| call_h c s : sdk_call unit (QC.h c s)
| call_x c s : sdk_call unit (QC.x c s)
| call_z c s : sdk_call unit (QC.z c s)
| call_cz c a b : sdk_call unit (QC.cz c a b)
| call_mct c controls target : sdk_call unit (QC.mct c controls target)
| call_to_gate c : sdk_call Gate (QC.to_gate c)
| call_append c g qargs : sdk_call unit (QC.append c g qargs)
| call_copy c : sdk_call ref (QC.copy c)
| call_save_statevector c : sdk_call unit (QC.save_statevector c)
| call_measure_all c : sdk_call unit (QC.measure_all c)
| call_draw c : sdk_call unit (QC.draw c)
| call_assemble c : sdk_call Qobj (assemble c)
| call_run_result q : sdk_call SimResult (run_result q)
| call_get_statevector r : sdk_call State (get_statevector r)
| call_get_counts r : sdk_call (nat -> R) (get_counts r)
| call_array_to_latex psi : sdk_call unit (array_to_latex psi)
| call_plot_histogram counts : sdk_call unit (plot_histogram counts).
Arguments sdk_call {A} _.

(** [handler_free m]: [m] is made of SDK calls and returned values put in
    sequence, and of nothing else; in particular nothing in it catches an
    exception. *)
Inductive handler_free : forall A : Type, M A -> Prop :=
| hf_ret A (a : A) : handler_free A (ret a)
| hf_call A (p : M A) : sdk_call p -> handler_free A p
| hf_bind A B (m : M A) (f : A -> M B) :
    handler_free A m -> (forall a, handler_free B (f a)) ->
    handler_free B (bind m f).
Arguments handler_free {A} _.

(** [reaches m w p w0]: run from the world [w], the sequence [m] gets to the
    SDK call [p] and starts it in the world [w0], every call before it having
    returned. *)
Inductive reaches : forall A : Type, M A -> World -> forall B : Type, M B -> World -> Prop :=
| reaches_call A (p : M A) w : sdk_call p -> reaches A p w A p w
| reaches_first A B (m : M A) (f : A -> M B) w C (p : M C) w0 :
    reaches A m w C p w0 -> reaches B (bind m f) w C p w0
| reaches_next A B (m : M A) (f : A -> M B) w a w1 C (p : M C) w0 :
    m w = (Ok a, w1) -> reaches B (f a) w1 C p w0 ->
    reaches B (bind m f) w C p w0.
Arguments reaches {A} _ _ {B} _ _.

(** The checkpoint copy of the notebook binds the simulator to the name
    [simulator]; its last cell reaches for it by a name, which Python looks
    up in the session and which raises [NameError] when it is not bound.  The
    cell's source reads [simulator.run(qobj)]; the traceback recorded under
    it reads [sim.run(qobj)]. *)
Module Checkpoint.

Definition session : list string :=
  ["plt"; "np"; "IBMQ"; "Aer"; "assemble"; "transpile"; "QuantumCircuit";
   "ClassicalRegister"; "QuantumRegister"; "least_busy"; "QasmSimulator";
   "plot_histogram"; "array_to_latex"; "simulator"; "n"; "grover_circuit";
   "initialize_s"; "diffuser"; "grover_circuit_sim"; "qobj"; "result";
   "statevec"]%string.

Definition global_name (name : string) : M unit :=
  if existsb (String.eqb name) session then ret tt else raise (NameError name).

Definition cell_measure (backend : string) (grover_circuit : ref) : M (nat -> R) :=
  QC.measure_all grover_circuit ;;;
  qobj <- assemble grover_circuit ;;
  global_name backend ;;;
  result <- run_result qobj ;;
  counts <- get_counts result ;;
  plot_histogram counts ;;;
  ret counts.

End Checkpoint.

(** * Properties *)

(** ** Amplitudes *)

Local Open Scope R_scope.

Lemma C_ext (a b : C) : re a = re b -> im a = im b -> a = b.
Proof. destruct a, b; simpl; intros -> ->; reflexivity. Qed.

Lemma inv_sqrt2_sqr : inv_sqrt2 * inv_sqrt2 = / 2.
Proof.
  unfold inv_sqrt2.
  rewrite <- Rinv_mult, sqrt_sqrt by lra.
  reflexivity.
Qed.

Lemma inv_sqrt2_pow2 : inv_sqrt2 ^ 2 = / 2.
Proof. simpl. rewrite Rmult_1_r. apply inv_sqrt2_sqr. Qed.

(** Equalities between amplitudes are split into their real and imaginary
    parts and closed as polynomial identities modulo [inv_sqrt2 ^ 2 = 1/2]. *)
Ltac camp_unfold :=
  unfold Cminus, Cplus, Copp, Cmult, Cscale, RtoC, Czero, Cone, Cnorm2 in *;
  simpl re in *; simpl im in *.

Ltac rsolve :=
  first
    [ lra
    | ring
    | ring_simplify; rewrite ?inv_sqrt2_pow2; (lra || field)
    | match goal with
      | |- ?l = ?r =>
          let H := fresh in
          assert (H : l - r = 0);
          [ ring_simplify; rewrite ?inv_sqrt2_pow2; (lra || field) | lra ]
      end ].

Ltac csolve := apply C_ext; camp_unfold; rsolve.

Local Close Scope R_scope.

(** ** The store *)

Section Store.

Context {A : Type}.

Lemma nth_error_update_same (l : list A) k a b :
  nth_error l k = Some b -> nth_error (update l k a) k = Some a.
Proof.
  revert k; induction l as [|c l IH]; intros [|k]; simpl; try discriminate; auto.
Qed.

Lemma nth_error_update_other (l : list A) k k' a :
  k <> k' -> nth_error (update l k a) k' = nth_error l k'.
Proof.
  revert k k'; induction l as [|c l IH]; intros [|k] [|k'] Hne; simpl; auto;
    try congruence.
Qed.

Lemma update_update (l : list A) k a b : update (update l k a) k b = update l k b.
Proof.
  revert k; induction l as [|c l IH]; intros [|k]; simpl; auto.
  f_equal. apply IH.
Qed.

Lemma update_same (l : list A) k a : nth_error l k = Some a -> update l k a = l.
Proof.
  revert k; induction l as [|c l IH]; intros [|k]; simpl; try discriminate.
  - intros [= ->]. reflexivity.
  - intros Hk. f_equal. apply IH, Hk.
Qed.

Lemma update_app_r (l : list A) b a :
  update (l ++ [b]) (List.length l) a = l ++ [a].
Proof.
  induction l as [|c l IH]; simpl; auto. f_equal. apply IH.
Qed.

End Store.

Lemma circuit_eta (qc : QuantumCircuit) :
  mkCircuit (num_qubits qc) (num_clbits qc) (data qc) = qc.
Proof. destruct qc; reflexivity. Qed.

Lemma world_eta (w : World) : mkWorld (objects w) (trace w) = w.
Proof. destruct w; reflexivity. Qed.

Lemma appended_nil c w : appended c [] w = w.
Proof.
  unfold appended. destruct (nth_error (objects w) c) as [qc|] eqn:E; auto.
  simpl. rewrite !app_nil_r, circuit_eta, (update_same _ _ _ E).
  apply world_eta.
Qed.

Lemma appended_lookup c l w qc :
  nth_error (objects w) c = Some qc ->
  nth_error (objects (appended c l w)) c =
    Some (mkCircuit (num_qubits qc) (num_clbits qc) (data qc ++ l)).
Proof.
  intros E. unfold appended. rewrite E. simpl.
  eapply nth_error_update_same, E.
Qed.

Lemma appended_app c l1 l2 w :
  appended c l2 (appended c l1 w) = appended c (l1 ++ l2) w.
Proof.
  destruct (nth_error (objects w) c) as [qc|] eqn:E.
  - unfold appended at 1. rewrite (appended_lookup _ _ _ _ E). simpl.
    unfold appended. rewrite E. simpl.
    rewrite update_update, map_app, <- !app_assoc. reflexivity.
  - unfold appended. rewrite E, E. reflexivity.
Qed.

Lemma appended_other c c' l w :
  c <> c' -> nth_error (objects (appended c l w)) c' = nth_error (objects w) c'.
Proof.
  intros Hne. unfold appended.
  destruct (nth_error (objects w) c); simpl; auto.
  apply nth_error_update_other, Hne.
Qed.

Lemma appended_trace c l w qc :
  nth_error (objects w) c = Some qc ->
  trace (appended c l w) = trace w ++ map (Appended c) l.
Proof. intros E. unfold appended. rewrite E. reflexivity. Qed.

(** ** The circuit methods *)

Lemma bind_ok {A B} (m : M A) (f : A -> M B) w a w' :
  m w = (Ok a, w') -> bind m f w = f a w'.
Proof. intros E. unfold bind. rewrite E. reflexivity. Qed.

Lemma bind_raise {A B} (m : M A) (f : A -> M B) w e w' :
  m w = (Raise e, w') -> bind m f w = (Raise e, w').
Proof. intros E. unfold bind. rewrite E. reflexivity. Qed.

Lemma lookup_ok c w qc :
  nth_error (objects w) c = Some qc -> lookup c w = (Ok qc, w).
Proof. intros E. unfold lookup. rewrite E. reflexivity. Qed.

Lemma append_instruction_ok c i w qc :
  nth_error (objects w) c = Some qc ->
  append_instruction c i w = (Ok tt, appended c [i] w).
Proof.
  intros E. unfold append_instruction.
  rewrite (bind_ok _ _ _ _ _ (lookup_ok _ _ _ E)).
  unfold appended. rewrite E. reflexivity.
Qed.

Lemma for_each_append {A} (G : A -> Instruction) c (ks : list A) w qc :
  nth_error (objects w) c = Some qc ->
  for_each ks (fun k => append_instruction c (G k)) w =
    (Ok tt, appended c (map G ks) w).
Proof.
  revert w qc. induction ks as [|k ks IH]; intros w qc E; simpl.
  - rewrite appended_nil. reflexivity.
  - rewrite (bind_ok _ _ _ _ _ (append_instruction_ok _ _ _ _ E)).
    rewrite (IH _ _ (appended_lookup _ _ _ _ E)).
    rewrite appended_app. reflexivity.
Qed.

Lemma resolve_qubit_nat nq k :
  k < nq -> resolve_qubit nq (Z.of_nat k) = Some k.
Proof.
  intros Hk. unfold resolve_qubit.
  replace ((0 <=? Z.of_nat k)%Z && (Z.of_nat k <? Z.of_nat nq)%Z) with true.
  - rewrite Nat2Z.id. reflexivity.
  - symmetry. apply andb_true_intro. split.
    + apply Z.leb_le. lia.
    + apply Z.ltb_lt. lia.
Qed.

Lemma resolve_qubits_nat nq (ks : list nat) :
  Forall (fun k => k < nq) ks ->
  resolve_qubits nq (map Z.of_nat ks) = Some ks.
Proof.
  induction 1 as [|k ks Hk _ IH]; simpl; auto.
  rewrite (resolve_qubit_nat _ _ Hk), IH. reflexivity.
Qed.

Lemma seq_below a len nq : a + len <= nq -> Forall (fun k => k < nq) (seq a len).
Proof.
  intros Hle. apply Forall_forall. intros k Hin. apply in_seq in Hin. lia.
Qed.

Lemma resolve_qubits_range nq len :
  len <= nq -> resolve_qubits nq (range (Z.of_nat len)) = Some (seq 0 len).
Proof.
  intros Hle. unfold range. rewrite Nat2Z.id.
  apply resolve_qubits_nat, seq_below. lia.
Qed.

Lemma qubit_arg_ok c q w qc k :
  nth_error (objects w) c = Some qc ->
  resolve_qubit (num_qubits qc) q = Some k ->
  qubit_arg c q w = (Ok k, w).
Proof.
  intros E Hq. unfold qubit_arg.
  rewrite (bind_ok _ _ _ _ _ (lookup_ok _ _ _ E)), Hq. reflexivity.
Qed.

Lemma qubit_args_ok c qs w qc ks :
  nth_error (objects w) c = Some qc ->
  resolve_qubits (num_qubits qc) qs = Some ks ->
  qubit_args c qs w = (Ok ks, w).
Proof.
  intros E Hq. unfold qubit_args.
  rewrite (bind_ok _ _ _ _ _ (lookup_ok _ _ _ E)), Hq. reflexivity.
Qed.

Section SingleQubitGates.

Variable G : nat -> Instruction.

(** The common shape of [h], [x] and [z]. *)
Let method (c : ref) (s : QC.QubitSpec) : M unit :=
  ks <- QC.qubit_spec_args c s ;;
  for_each ks (fun k => append_instruction c (G k)).

Lemma method_int_ok c q w qc k :
  nth_error (objects w) c = Some qc ->
  resolve_qubit (num_qubits qc) q = Some k ->
  method c (QC.QInt q) w = (Ok tt, appended c [G k] w).
Proof.
  intros E Hq. unfold method, QC.qubit_spec_args.
  erewrite bind_ok.
  2:{ erewrite bind_ok by (eapply qubit_arg_ok; eauto). reflexivity. }
  erewrite for_each_append by eauto. reflexivity.
Qed.

Lemma method_list_ok c qs w qc ks :
  nth_error (objects w) c = Some qc ->
  resolve_qubits (num_qubits qc) qs = Some ks ->
  method c (QC.QList qs) w = (Ok tt, appended c (map G ks) w).
Proof.
  intros E Hq. unfold method, QC.qubit_spec_args.
  erewrite bind_ok by (eapply qubit_args_ok; eauto).
  erewrite for_each_append by eauto. reflexivity.
Qed.

(** [for q in qs: c.g(q)] appends one gate per element, in order. *)
Lemma for_each_method_ok c qs : forall w qc ks,
  nth_error (objects w) c = Some qc ->
  resolve_qubits (num_qubits qc) qs = Some ks ->
  for_each qs (fun q => method c (QC.QInt q)) w = (Ok tt, appended c (map G ks) w).
Proof.
  induction qs as [|q qs IH]; intros w qc ks E Hq; simpl in *.
  - injection Hq as <-. rewrite appended_nil. reflexivity.
  - destruct (resolve_qubit (num_qubits qc) q) as [k|] eqn:Ek; try discriminate.
    destruct (resolve_qubits (num_qubits qc) qs) as [ks'|] eqn:Eks; try discriminate.
    injection Hq as <-.
    erewrite bind_ok by (eapply method_int_ok; eauto).
    erewrite IH; [| eapply appended_lookup; eauto | simpl; eauto ].
    rewrite appended_app. reflexivity.
Qed.

End SingleQubitGates.

Lemma has_duplicates_seq a len : QC.has_duplicates (seq a len) = false.
Proof.
  revert a; induction len as [|len IH]; intros a; simpl; auto.
  rewrite IH, orb_false_r.
  apply not_true_is_false. intros Hex.
  apply existsb_exists in Hex. destruct Hex as [b [Hin Hb]].
  apply in_seq in Hin. apply Nat.eqb_eq in Hb. lia.
Qed.

Lemma cz_ok c a b w qc ka kb :
  nth_error (objects w) c = Some qc ->
  resolve_qubit (num_qubits qc) a = Some ka ->
  resolve_qubit (num_qubits qc) b = Some kb ->
  ka <> kb ->
  QC.cz c a b w = (Ok tt, appended c [CZGate ka kb] w).
Proof.
  intros E Ha Hb Hne. unfold QC.cz.
  erewrite bind_ok by (eapply qubit_arg_ok; eauto).
  erewrite bind_ok by (eapply qubit_arg_ok; eauto).
  apply Nat.eqb_neq in Hne. rewrite Hne.
  eapply append_instruction_ok; eauto.
Qed.

Lemma mct_ok c controls target w qc ks t :
  nth_error (objects w) c = Some qc ->
  controls <> [] ->
  resolve_qubits (num_qubits qc) controls = Some ks ->
  resolve_qubit (num_qubits qc) target = Some t ->
  QC.has_duplicates (ks ++ [t]) = false ->
  QC.mct c controls target w = (Ok tt, appended c [MCXGate ks t] w).
Proof.
  intros E Hne Hks Ht Hdup. unfold QC.mct.
  destruct controls as [|q0 rest]; [contradiction|].
  erewrite bind_ok by (eapply qubit_args_ok; eauto).
  erewrite bind_ok by (eapply qubit_arg_ok; eauto).
  rewrite Hdup.
  eapply append_instruction_ok; eauto.
Qed.

Lemma forallb_is_gate_diffuser_gates n : forallb is_gate (diffuser_gates n) = true.
Proof.
  unfold diffuser_gates. rewrite !forallb_app. simpl.
  assert (HH : forall l, forallb is_gate (map HGate l) = true)
    by (induction l; simpl; auto).
  assert (HX : forall l, forallb is_gate (map XGate l) = true)
    by (induction l; simpl; auto).
  rewrite !HH, !HX. reflexivity.
Qed.

(** For two qubits or more, [diffuser] allocates one circuit, appends
    [diffuser_gates] to it and returns them as the gate named [U$_s$]. *)
Lemma diffuser_ok (nqubits : Z) (w : World) :
  (2 <= nqubits)%Z ->
  let n := Z.to_nat nqubits in
  let qc := List.length (objects w) in
  diffuser nqubits w =
    (Ok (mkGate "U$_s$" n (diffuser_gates n)),
     mkWorld (objects w ++ [mkCircuit n 0 (diffuser_gates n)])
             (trace w ++ map (Appended qc) (diffuser_gates n))).
Proof.
  intros Hn n qc.
  assert (Hz : nqubits = Z.of_nat n) by (unfold n; lia).
  assert (Hn2 : 2 <= n) by lia.
  set (w0 := mkWorld (objects w ++ [mkCircuit n 0 []]) (trace w)).
  assert (E0 : nth_error (objects w0) qc = Some (mkCircuit n 0 [])).
  { unfold w0, qc. simpl. rewrite nth_error_app2, Nat.sub_diag by lia. reflexivity. }
  assert (Hlast : resolve_qubit n (nqubits - 1) = Some (n - 1)).
  { replace (nqubits - 1)%Z with (Z.of_nat (n - 1)) by lia.
    apply resolve_qubit_nat. lia. }
  assert (Hctl : resolve_qubits n (range (nqubits - 1)) = Some (seq 0 (n - 1))).
  { replace (nqubits - 1)%Z with (Z.of_nat (n - 1)) by lia.
    apply resolve_qubits_range. lia. }
  assert (Hall : resolve_qubits n (range nqubits) = Some (seq 0 n)).
  { rewrite Hz. apply resolve_qubits_range. lia. }
  unfold diffuser.
  erewrite bind_ok with (w' := w0) (a := qc).
  2:{ unfold QC.new_circuit. replace (nqubits <? 0)%Z with false
        by (symmetry; apply Z.ltb_ge; lia). reflexivity. }
  erewrite bind_ok by (eapply (for_each_method_ok HGate); eauto).
  erewrite bind_ok
    by (eapply (for_each_method_ok XGate); [eapply appended_lookup|]; eauto).
  rewrite appended_app.
  erewrite bind_ok
    by (eapply (method_int_ok HGate); [eapply appended_lookup|]; eauto).
  rewrite appended_app.
  erewrite bind_ok.
  2:{ eapply mct_ok; [eapply appended_lookup; eauto | | simpl; eauto | simpl; eauto |].
      - unfold range. replace (Z.to_nat (nqubits - 1)) with (S (n - 2)) by lia.
        simpl. discriminate.
      - replace (seq 0 (n - 1) ++ [n - 1]) with (seq 0 (S (n - 1)))
          by (rewrite seq_S; reflexivity).
        apply has_duplicates_seq. }
  rewrite appended_app.
  erewrite bind_ok
    by (eapply (method_int_ok HGate); [eapply appended_lookup|]; eauto).
  rewrite appended_app.
  erewrite bind_ok
    by (eapply (for_each_method_ok XGate); [eapply appended_lookup|]; eauto).
  rewrite appended_app.
  erewrite bind_ok
    by (eapply (for_each_method_ok HGate); [eapply appended_lookup|]; eauto).
  rewrite appended_app.
  simpl app.
  assert (Hgates :
    map HGate (seq 0 n) ++ map XGate (seq 0 n) ++
    HGate (n - 1) :: MCXGate (seq 0 (n - 1)) (n - 1) :: HGate (n - 1) ::
    map XGate (seq 0 n) ++ map HGate (seq 0 n) = diffuser_gates n) by reflexivity.
  repeat rewrite <- app_assoc. simpl app. rewrite Hgates.
  erewrite bind_ok.
  2:{ unfold QC.to_gate.
      erewrite bind_ok by (eapply lookup_ok, appended_lookup; eauto).
      simpl. rewrite forallb_is_gate_diffuser_gates. reflexivity. }
  unfold ret, QC.set_name. simpl.
  f_equal. unfold appended. rewrite E0. simpl.
  unfold qc. rewrite update_app_r. reflexivity.
Qed.

(** ** Two qubits: the action of the gates on the four amplitudes *)

Lemma amps_zero_state : amps zero_state Cone Czero Czero Czero.
Proof. repeat split. Qed.

Lemma amps_h0 psi a b c d :
  amps psi a b c d ->
  amps (apply_h 0 psi)
    (Cscale inv_sqrt2 (Cplus a b)) (Cscale inv_sqrt2 (Cplus a (Copp b)))
    (Cscale inv_sqrt2 (Cplus c d)) (Cscale inv_sqrt2 (Cplus c (Copp d))).
Proof. intros (<- & <- & <- & <-). repeat split. Qed.

Lemma amps_h1 psi a b c d :
  amps psi a b c d ->
  amps (apply_h 1 psi)
    (Cscale inv_sqrt2 (Cplus a c)) (Cscale inv_sqrt2 (Cplus b d))
    (Cscale inv_sqrt2 (Cplus a (Copp c))) (Cscale inv_sqrt2 (Cplus b (Copp d))).
Proof. intros (<- & <- & <- & <-). repeat split. Qed.

Lemma amps_z0 psi a b c d :
  amps psi a b c d -> amps (apply_z 0 psi) a (Copp b) c (Copp d).
Proof. intros (<- & <- & <- & <-). repeat split. Qed.

Lemma amps_z1 psi a b c d :
  amps psi a b c d -> amps (apply_z 1 psi) a b (Copp c) (Copp d).
Proof. intros (<- & <- & <- & <-). repeat split. Qed.

Lemma amps_cz01 psi a b c d :
  amps psi a b c d -> amps (apply_cz 0 1 psi) a b c (Copp d).
Proof. intros (<- & <- & <- & <-). repeat split. Qed.

Lemma amps_eq psi a b c d a' b' c' d' :
  amps psi a b c d -> a = a' -> b = b' -> c = c' -> d = d' -> amps psi a' b' c' d'.
Proof. intros H <- <- <- <-. exact H. Qed.

(** Hadamard on both qubits. *)
Lemma amps_h01 psi a b c d :
  amps psi a b c d ->
  amps (apply_h 1 (apply_h 0 psi))
    (Cscale (/ 2) (Cplus (Cplus a b) (Cplus c d)))
    (Cscale (/ 2) (Cplus (Cminus a b) (Cminus c d)))
    (Cscale (/ 2) (Cminus (Cplus a b) (Cplus c d)))
    (Cscale (/ 2) (Cminus (Cminus a b) (Cminus c d))).
Proof.
  intros H. eapply amps_eq; [apply amps_h1, amps_h0, H | csolve ..].
Qed.

(** ** The notebook's circuit *)

(** The notebook run top to bottom returns the state [grover_state]. *)
Lemma notebook_run_statevector :
  exists counts, fst (Notebook.run empty_world) = Ok (grover_state, counts).
Proof. eexists. reflexivity. Qed.

Lemma build_circuit_data :
  exists w,
    Notebook.build_circuit empty_world = (Ok 0%nat, w) /\
    circuit_data 0%nat w = grover_gates.
Proof. eexists. split; reflexivity. Qed.

Lemma unitary_grover_gates : unitary grover_gates zero_state = Some grover_state.
Proof. reflexivity. Qed.

Lemma amps_after_initialize :
  amps (apply_h 1 (apply_h 0 zero_state)) half half half half.
Proof.
  eapply amps_eq; [ apply amps_h01, amps_zero_state | unfold half; csolve .. ].
Qed.

Lemma amps_after_oracle :
  amps (apply_cz 0 1 (apply_h 1 (apply_h 0 zero_state))) half half half (Copp half).
Proof. apply amps_cz01, amps_after_initialize. Qed.

Lemma amps_after_phase_flips :
  amps (apply_cz 0 1 (apply_z 1 (apply_z 0
          (apply_h 1 (apply_h 0
             (apply_cz 0 1 (apply_h 1 (apply_h 0 zero_state))))))))
       half (Copp half) (Copp half) half.
Proof.
  eapply amps_eq;
    [ apply amps_cz01, amps_z1, amps_z0, amps_h01, amps_after_oracle
    | unfold half; csolve .. ].
Qed.

Lemma grover_state_amps : amps grover_state Czero Czero Czero Cone.
Proof.
  unfold grover_state.
  eapply amps_eq;
    [ apply amps_h01, amps_after_phase_flips | unfold half; csolve .. ].
Qed.

(** ** Bits of basis indices *)

Section Bits.

Implicit Types i p q : nat.

Lemma testbit_clearbit_same i q : Nat.testbit (Nat.clearbit i q) q = false.
Proof. rewrite Nat.clearbit_eqb, Nat.eqb_refl. apply andb_false_r. Qed.

Lemma testbit_setbit_same i q : Nat.testbit (Nat.setbit i q) q = true.
Proof. rewrite Nat.setbit_eqb, Nat.eqb_refl. reflexivity. Qed.

Lemma testbit_clearbit_other i p q :
  p <> q -> Nat.testbit (Nat.clearbit i q) p = Nat.testbit i p.
Proof.
  intros Hne. rewrite Nat.clearbit_eqb.
  replace (q =? p)%nat with false by (symmetry; apply Nat.eqb_neq; congruence).
  apply andb_true_r.
Qed.

Lemma testbit_setbit_other i p q :
  p <> q -> Nat.testbit (Nat.setbit i q) p = Nat.testbit i p.
Proof.
  intros Hne. rewrite Nat.setbit_eqb.
  replace (q =? p)%nat with false by (symmetry; apply Nat.eqb_neq; congruence).
  reflexivity.
Qed.

(** Two indices are equal when all their bits are. *)
Ltac bits_eq :=
  apply Nat.bits_inj; intros ?m;
  repeat rewrite ?Nat.setbit_eqb, ?Nat.clearbit_eqb;
  repeat match goal with
         | |- context [(?a =? ?b)%nat] => destruct (Nat.eqb_spec a b); subst
         end;
  simpl; rewrite ?andb_true_r, ?andb_false_r, ?orb_true_r, ?orb_false_r;
  try reflexivity; try congruence.

Lemma clearbit_clearbit i q : Nat.clearbit (Nat.clearbit i q) q = Nat.clearbit i q.
Proof. bits_eq. Qed.

Lemma setbit_setbit i q : Nat.setbit (Nat.setbit i q) q = Nat.setbit i q.
Proof. bits_eq. Qed.

Lemma setbit_clearbit i q : Nat.setbit (Nat.clearbit i q) q = Nat.setbit i q.
Proof. bits_eq. Qed.

Lemma clearbit_setbit i q : Nat.clearbit (Nat.setbit i q) q = Nat.clearbit i q.
Proof. bits_eq. Qed.

Lemma clearbit_id i q : Nat.testbit i q = false -> Nat.clearbit i q = i.
Proof.
  intros Hb. apply Nat.bits_inj; intros m. rewrite Nat.clearbit_eqb.
  destruct (Nat.eqb_spec q m); subst; simpl.
  - rewrite Hb. reflexivity.
  - apply andb_true_r.
Qed.

Lemma setbit_id i q : Nat.testbit i q = true -> Nat.setbit i q = i.
Proof.
  intros Hb. apply Nat.bits_inj; intros m. rewrite Nat.setbit_eqb.
  destruct (Nat.eqb_spec q m); subst; simpl; auto.
Qed.

Lemma clearbit_comm i p q :
  Nat.clearbit (Nat.clearbit i q) p = Nat.clearbit (Nat.clearbit i p) q.
Proof. bits_eq; destruct (Nat.testbit i m); reflexivity. Qed.

Lemma setbit_comm i p q :
  Nat.setbit (Nat.setbit i q) p = Nat.setbit (Nat.setbit i p) q.
Proof. bits_eq. Qed.

Lemma setbit_clearbit_comm i p q :
  p <> q -> Nat.setbit (Nat.clearbit i q) p = Nat.clearbit (Nat.setbit i p) q.
Proof. intros Hne. bits_eq. Qed.

Lemma testbit_flipbit_same i q : Nat.testbit (flipbit i q) q = negb (Nat.testbit i q).
Proof.
  unfold flipbit. destruct (Nat.testbit i q) eqn:E.
  - apply testbit_clearbit_same.
  - apply testbit_setbit_same.
Qed.

Lemma testbit_flipbit_other i p q :
  p <> q -> Nat.testbit (flipbit i q) p = Nat.testbit i p.
Proof.
  intros Hne. unfold flipbit. destruct (Nat.testbit i q).
  - apply testbit_clearbit_other, Hne.
  - apply testbit_setbit_other, Hne.
Qed.

End Bits.

(** ** Hadamard gates on several qubits *)

Lemma apply_each_snoc g qs q psi :
  apply_each g (qs ++ [q]) psi = g q (apply_each g qs psi).
Proof. unfold apply_each. rewrite fold_left_app. reflexivity. Qed.

Lemma h_all_S n psi : h_all (S n) psi = apply_h n (h_all n psi).
Proof. unfold h_all. rewrite seq_S. apply apply_each_snoc. Qed.

Lemma x_all_S n psi : x_all (S n) psi = apply_x n (x_all n psi).
Proof. unfold x_all. rewrite seq_S. apply apply_each_snoc. Qed.

(** Hadamard is its own inverse. *)
Lemma apply_h_involutive q psi : apply_h q (apply_h q psi) = psi.
Proof.
  extensionality i. unfold apply_h.
  rewrite testbit_clearbit_same, testbit_setbit_same.
  rewrite clearbit_clearbit, setbit_clearbit, clearbit_setbit, setbit_setbit.
  destruct (Nat.testbit i q) eqn:E.
  - transitivity (psi (Nat.setbit i q)); [csolve | f_equal; apply setbit_id, E].
  - transitivity (psi (Nat.clearbit i q)); [csolve | f_equal; apply clearbit_id, E].
Qed.

(** Hadamards on different qubits commute. *)
Lemma apply_h_comm p q psi :
  p <> q -> apply_h p (apply_h q psi) = apply_h q (apply_h p psi).
Proof.
  intros Hne. extensionality i. unfold apply_h.
  assert (Hne' : q <> p) by congruence.
  rewrite !(testbit_clearbit_other _ _ _ Hne), !(testbit_setbit_other _ _ _ Hne).
  rewrite !(testbit_clearbit_other _ _ _ Hne'), !(testbit_setbit_other _ _ _ Hne').
  rewrite (clearbit_comm i p q), (setbit_comm i p q).
  rewrite (setbit_clearbit_comm i p q Hne), (setbit_clearbit_comm i q p Hne').
  destruct (Nat.testbit i p), (Nat.testbit i q); csolve.
Qed.

Lemma h_all_comm n q psi :
  n <= q -> apply_h q (h_all n psi) = h_all n (apply_h q psi).
Proof.
  revert psi. induction n as [|n IH]; intros psi Hle; [reflexivity|].
  rewrite !h_all_S, apply_h_comm by lia.
  rewrite IH by lia. reflexivity.
Qed.

Lemma h_all_involutive n psi : h_all n (h_all n psi) = psi.
Proof.
  revert psi. induction n as [|n IH]; intros psi; [reflexivity|].
  rewrite !h_all_S, <- h_all_comm by lia.
  rewrite apply_h_involutive. apply IH.
Qed.

Lemma apply_h_sel q k f g :
  q <> k -> apply_h q (sel k f g) = sel k (apply_h q f) (apply_h q g).
Proof.
  intros Hne. extensionality i. unfold apply_h, sel.
  assert (Hne' : k <> q) by congruence.
  rewrite (testbit_clearbit_other _ _ _ Hne'), (testbit_setbit_other _ _ _ Hne').
  destruct (Nat.testbit i k); reflexivity.
Qed.

Lemma h_all_sel n k f g :
  n <= k -> h_all n (sel k f g) = sel k (h_all n f) (h_all n g).
Proof.
  intros Hle. induction n as [|n IH]; [reflexivity|].
  rewrite !h_all_S, IH by lia. apply apply_h_sel. lia.
Qed.

(** ** The diffuser on [n] qubits *)

Lemma all_set_S n i : all_set (S n) i = all_set n i && Nat.testbit i n.
Proof.
  unfold all_set. rewrite seq_S, forallb_app. simpl.
  rewrite andb_true_r. reflexivity.
Qed.

Lemma all_clear_S n i : all_clear (S n) i = all_clear n i && negb (Nat.testbit i n).
Proof.
  unfold all_clear. rewrite seq_S, forallb_app. simpl.
  rewrite andb_true_r. reflexivity.
Qed.

Lemma x_all_eval n psi i : x_all n psi i = psi (flip_low n i).
Proof.
  revert psi i. induction n as [|n IH]; intros psi i; [reflexivity|].
  rewrite x_all_S. unfold apply_x. rewrite IH. reflexivity.
Qed.

Lemma testbit_flip_low n i p :
  Nat.testbit (flip_low n i) p =
    if (p <? n)%nat then negb (Nat.testbit i p) else Nat.testbit i p.
Proof.
  revert i. induction n as [|n IH]; intros i; simpl flip_low.
  - reflexivity.
  - rewrite IH.
    destruct (Nat.ltb_spec p n) as [Hlt|Hge].
    + rewrite testbit_flipbit_other by lia.
      replace (p <? S n)%nat with true by (symmetry; apply Nat.ltb_lt; lia).
      reflexivity.
    + destruct (Nat.eq_dec p n) as [->|Hne].
      * rewrite testbit_flipbit_same.
        replace (n <? S n)%nat with true by (symmetry; apply Nat.ltb_lt; lia).
        reflexivity.
      * rewrite testbit_flipbit_other by assumption.
        replace (p <? S n)%nat with false by (symmetry; apply Nat.ltb_ge; lia).
        reflexivity.
Qed.

Lemma flip_low_involutive n i : flip_low n (flip_low n i) = i.
Proof.
  apply Nat.bits_inj; intros p. rewrite !testbit_flip_low.
  destruct (p <? n)%nat; [apply negb_involutive | reflexivity].
Qed.

Lemma all_set_flip_low n i : all_set n (flip_low n i) = all_clear n i.
Proof.
  unfold all_set, all_clear.
  assert (H : forall l, Forall (fun q => q < n) l ->
            forallb (Nat.testbit (flip_low n i)) l =
            forallb (fun q => negb (Nat.testbit i q)) l).
  { induction 1 as [|q l Hq _ IH]; simpl; auto.
    rewrite IH, testbit_flip_low.
    replace (q <? n)%nat with true by (symmetry; apply Nat.ltb_lt; lia).
    reflexivity. }
  apply H, seq_below. lia.
Qed.

(** X on every qubit turns "negate where all are set" into "negate where all
    are clear". *)
Lemma x_all_negate n psi :
  x_all n (negate_where (all_set n) (x_all n psi)) = negate_where (all_clear n) psi.
Proof.
  extensionality i. rewrite x_all_eval. unfold negate_where.
  rewrite all_set_flip_low, x_all_eval, flip_low_involutive. reflexivity.
Qed.

Lemma forallb_testbit_clearbit i t cs :
  ~ In t cs ->
  forallb (Nat.testbit (Nat.clearbit i t)) cs = forallb (Nat.testbit i) cs.
Proof.
  induction cs as [|c cs IH]; simpl; intros Hin; auto.
  rewrite IH by tauto. rewrite testbit_clearbit_other by (intros ->; tauto).
  reflexivity.
Qed.

Lemma forallb_testbit_setbit i t cs :
  ~ In t cs ->
  forallb (Nat.testbit (Nat.setbit i t)) cs = forallb (Nat.testbit i) cs.
Proof.
  induction cs as [|c cs IH]; simpl; intros Hin; auto.
  rewrite IH by tauto. rewrite testbit_setbit_other by (intros ->; tauto).
  reflexivity.
Qed.

(** Hadamard on the target around a multi-controlled X is a multi-controlled
    Z: it negates the amplitudes in which controls and target are all set. *)
Lemma h_mcx_h cs t psi :
  ~ In t cs ->
  apply_h t (apply_mcx cs t (apply_h t psi)) =
    negate_where (fun i => forallb (Nat.testbit i) cs && Nat.testbit i t) psi.
Proof.
  intros Hin. extensionality i.
  destruct (forallb (Nat.testbit i) cs) eqn:Ec.
  - unfold negate_where. rewrite Ec. simpl andb.
    unfold apply_h at 1. unfold apply_mcx.
    rewrite forallb_testbit_clearbit, forallb_testbit_setbit, Ec by assumption.
    unfold flipbit. rewrite testbit_clearbit_same, testbit_setbit_same.
    rewrite setbit_clearbit, clearbit_setbit.
    unfold apply_h.
    rewrite testbit_clearbit_same, testbit_setbit_same.
    rewrite clearbit_clearbit, setbit_clearbit, clearbit_setbit, setbit_setbit.
    destruct (Nat.testbit i t) eqn:E.
    + transitivity (Copp (psi (Nat.setbit i t)));
        [csolve | do 2 f_equal; apply setbit_id, E].
    + transitivity (psi (Nat.clearbit i t));
        [csolve | f_equal; apply clearbit_id, E].
  - transitivity (apply_h t (apply_h t psi) i).
    + unfold apply_h at 1 3. unfold apply_mcx.
      rewrite forallb_testbit_clearbit, forallb_testbit_setbit, Ec by assumption.
      reflexivity.
    + rewrite apply_h_involutive. unfold negate_where. rewrite Ec. reflexivity.
Qed.

Lemma unitary_app l1 l2 psi :
  unitary (l1 ++ l2) psi =
    match unitary l1 psi with
    | Some psi' => unitary l2 psi'
    | None => None
    end.
Proof.
  revert psi. induction l1 as [|i l1 IH]; intros psi; simpl; auto.
  destruct (apply_instruction i psi); auto.
Qed.

Lemma unitary_map_HGate qs psi :
  unitary (map HGate qs) psi = Some (apply_each apply_h qs psi).
Proof. revert psi. induction qs as [|q qs IH]; intros psi; simpl; auto. Qed.

Lemma unitary_map_XGate qs psi :
  unitary (map XGate qs) psi = Some (apply_each apply_x qs psi).
Proof. revert psi. induction qs as [|q qs IH]; intros psi; simpl; auto. Qed.

Lemma unitary_diffuser_gates n psi :
  unitary (diffuser_gates n) psi = Some (diffuser_action n psi).
Proof.
  unfold diffuser_gates, diffuser_action.
  rewrite unitary_app, unitary_map_HGate. cbv beta iota.
  rewrite unitary_app, unitary_map_XGate. cbv beta iota.
  rewrite unitary_app. cbn [unitary apply_instruction].
  rewrite unitary_app, unitary_map_XGate. cbv beta iota.
  rewrite unitary_map_HGate. reflexivity.
Qed.

(** Between the two layers of Hadamards the diffuser negates the amplitude
    of the all-zero basis state. *)
Lemma diffuser_action_eq n psi :
  1 <= n ->
  diffuser_action n psi = h_all n (negate_where (all_clear n) (h_all n psi)).
Proof.
  intros Hn. unfold diffuser_action.
  rewrite h_mcx_h by (rewrite in_seq; lia).
  replace (fun i => forallb (Nat.testbit i) (seq 0 (n - 1)) && Nat.testbit i (n - 1))
    with (all_set n).
  - rewrite x_all_negate. reflexivity.
  - extensionality i. replace n with (S (n - 1)) at 1 by lia.
    apply all_set_S.
Qed.

Lemma negate_where_involutive p psi : negate_where p (negate_where p psi) = psi.
Proof.
  extensionality i. unfold negate_where. destruct (p i); [csolve | reflexivity].
Qed.

(** Applying the diffuser twice is the identity. *)
Lemma diffuser_action_involutive n psi :
  1 <= n -> diffuser_action n (diffuser_action n psi) = psi.
Proof.
  intros Hn. rewrite !diffuser_action_eq by assumption.
  rewrite h_all_involutive, negate_where_involutive. apply h_all_involutive.
Qed.

Lemma avg_apply_h n q psi i :
  n <= q -> avg n (apply_h q psi) i = apply_h q (avg n psi) i.
Proof.
  revert i. induction n as [|n IH]; intros i Hle; [reflexivity|].
  simpl avg. rewrite !IH by lia. unfold apply_h. simpl avg.
  assert (Hne : q <> n) by lia. assert (Hne' : n <> q) by lia.
  rewrite (testbit_clearbit_other _ _ _ Hne), (testbit_setbit_other _ _ _ Hne).
  rewrite (clearbit_comm i n q), (setbit_comm i n q).
  rewrite (setbit_clearbit_comm i n q Hne'), (setbit_clearbit_comm i q n Hne).
  destruct (Nat.testbit i q); csolve.
Qed.

(** The diffuser maps every amplitude to itself minus twice the mean. *)
Lemma h_negate_h n : forall psi i,
  h_all n (negate_where (all_clear n) (h_all n psi)) i =
    Cminus (psi i) (Cscale 2 (avg n psi i)).
Proof.
  induction n as [|n IH]; intros psi i.
  - unfold h_all, apply_each, negate_where, all_clear. simpl. csolve.
  - rewrite !h_all_S, (h_all_comm n n psi) by lia.
    set (chi := apply_h n psi).
    replace (negate_where (all_clear (S n)) (h_all n chi))
      with (sel n (h_all n chi) (negate_where (all_clear n) (h_all n chi))).
    2:{ extensionality j. unfold sel, negate_where. rewrite all_clear_S.
        destruct (Nat.testbit j n); simpl; rewrite ?andb_false_r, ?andb_true_r;
          reflexivity. }
    rewrite h_all_sel, h_all_involutive by lia.
    assert (E1 : apply_h n chi i = psi i)
      by (unfold chi; rewrite apply_h_involutive; reflexivity).
    assert (E2 : Cscale inv_sqrt2 (avg n chi (Nat.clearbit i n)) = avg (S n) psi i).
    { unfold chi. rewrite avg_apply_h by lia. unfold apply_h. simpl avg.
      rewrite testbit_clearbit_same, clearbit_clearbit, setbit_clearbit. csolve. }
    rewrite <- E1, <- E2.
    unfold apply_h, sel.
    rewrite testbit_clearbit_same, testbit_setbit_same, IH.
    destruct (Nat.testbit i n); csolve.
Qed.

(** ** Inversion about the mean *)

Lemma Csum_ext f g m :
  (forall j, j < m -> f j = g j) -> Csum f m = Csum g m.
Proof.
  induction m as [|m IH]; intros H; simpl; auto.
  rewrite IH, H by (intros; try apply H; lia). reflexivity.
Qed.

Lemma Csum_add f a b :
  Csum f (a + b) = Cplus (Csum f a) (Csum (fun c => f (a + c)) b).
Proof.
  induction b as [|b IH]; simpl.
  - rewrite Nat.add_0_r. csolve.
  - rewrite Nat.add_succ_r. simpl. rewrite IH. csolve.
Qed.

Lemma Csum_scale x f m : Csum (fun j => Cscale x (f j)) m = Cscale x (Csum f m).
Proof.
  induction m as [|m IH]; simpl.
  - csolve.
  - rewrite IH. csolve.
Qed.

Lemma clearbit_div_pow2 i k : Nat.clearbit i k / 2 ^ k = 2 * (i / 2 ^ S k).
Proof.
  apply Nat.bits_inj; intros m.
  rewrite Nat.div_pow2_bits, Nat.clearbit_eqb.
  destruct m as [|m].
  - rewrite Nat.testbit_even_0. simpl. rewrite Nat.eqb_refl. apply andb_false_r.
  - rewrite Nat.testbit_even_succ, Nat.div_pow2_bits by apply Nat.le_0_l.
    replace (k =? S m + k)%nat with false by (symmetry; apply Nat.eqb_neq; lia).
    rewrite andb_true_r. f_equal. lia.
Qed.

Lemma setbit_div_pow2 i k : Nat.setbit i k / 2 ^ k = 2 * (i / 2 ^ S k) + 1.
Proof.
  apply Nat.bits_inj; intros m.
  rewrite Nat.div_pow2_bits, Nat.setbit_eqb.
  destruct m as [|m].
  - rewrite Nat.testbit_odd_0. simpl. rewrite Nat.eqb_refl. reflexivity.
  - rewrite Nat.testbit_odd_succ, Nat.div_pow2_bits by apply Nat.le_0_l.
    replace (k =? S m + k)%nat with false by (symmetry; apply Nat.eqb_neq; lia).
    rewrite orb_false_l. f_equal. lia.
Qed.

(** [avg] is the mean over the block of [2^n] indices around [i]. *)
Lemma avg_block n : forall psi i,
  avg n psi i =
    Cscale (/ 2 ^ n) (Csum (fun c => psi (2 ^ n * (i / 2 ^ n) + c)%nat) (2 ^ n)).
Proof.
  induction n as [|n IH]; intros psi i.
  - cbn [avg]. rewrite Nat.pow_0_r, Nat.div_1_r, Nat.mul_1_l. cbn [Csum].
    rewrite Nat.add_0_r. apply C_ext; camp_unfold; simpl pow; field.
  - simpl avg. rewrite !IH, clearbit_div_pow2, setbit_div_pow2.
    set (a := (i / 2 ^ S n)%nat).
    assert (Hsplit : forall f,
              Csum f (2 ^ S n) =
              Cplus (Csum f (2 ^ n)) (Csum (fun c => f (2 ^ n + c)%nat) (2 ^ n))).
    { intros f. replace (2 ^ S n)%nat with (2 ^ n + 2 ^ n)%nat by (simpl; lia).
      apply Csum_add. }
    rewrite Hsplit.
    rewrite (Csum_ext (fun c => psi (2 ^ n * (2 * a) + c)%nat)
                      (fun c => psi (2 ^ S n * a + c)%nat))
      by (intros; f_equal; rewrite Nat.pow_succ_r'; ring).
    rewrite (Csum_ext (fun c => psi (2 ^ n * (2 * a + 1) + c)%nat)
                      (fun c => psi (2 ^ S n * a + (2 ^ n + c))%nat))
      by (intros; f_equal; rewrite Nat.pow_succ_r'; ring).
    assert (Hp : (2 ^ n <> 0)%R) by (apply pow_nonzero; lra).
    apply C_ext; camp_unfold; simpl pow; field; assumption.
Qed.

Lemma avg_mean n psi i : i < 2 ^ n -> avg n psi i = mean n psi.
Proof.
  intros Hi. rewrite avg_block. unfold mean.
  rewrite Nat.div_small by assumption.
  f_equal. apply Csum_ext. intros j _. f_equal. lia.
Qed.

Lemma inv_sqrt2_pow_sqr n : (inv_sqrt2 ^ n * inv_sqrt2 ^ n = / 2 ^ n)%R.
Proof.
  rewrite <- Rpow_mult_distr, inv_sqrt2_sqr. apply pow_inv.
Qed.

Lemma inner_product_uniform n psi :
  inner_product n (uniform_superposition n) psi =
    Cscale (inv_sqrt2 ^ n) (Csum psi (2 ^ n)).
Proof.
  unfold inner_product. rewrite <- Csum_scale.
  apply Csum_ext. intros j Hj. unfold uniform_superposition.
  replace (j <? 2 ^ n)%nat with true by (symmetry; apply Nat.ltb_lt; assumption).
  csolve.
Qed.

(** On an [n]-qubit statevector [2|s><s| - I] sends every amplitude to twice
    the mean minus itself. *)
Lemma inversion_about_mean_eval n psi i :
  i < 2 ^ n ->
  inversion_about_mean n psi i = Cminus (Cscale 2 (mean n psi)) (psi i).
Proof.
  intros Hi. unfold inversion_about_mean, mean.
  rewrite inner_product_uniform. unfold uniform_superposition.
  replace (i <? 2 ^ n)%nat with true by (symmetry; apply Nat.ltb_lt; assumption).
  rewrite <- (inv_sqrt2_pow_sqr n).
  apply C_ext; camp_unfold; ring.
Qed.

(** The diffuser is [-(2|s><s| - I)]. *)
Lemma diffuser_action_inversion n psi i :
  1 <= n -> i < 2 ^ n ->
  diffuser_action n psi i = Copp (inversion_about_mean n psi i).
Proof.
  intros Hn Hi.
  rewrite diffuser_action_eq, h_negate_h by assumption.
  rewrite inversion_about_mean_eval, avg_mean by assumption.
  csolve.
Qed.

Lemma Cnorm2_minus_one : Cnorm2 (Copp Cone) = 1%R.
Proof. camp_unfold. ring. Qed.

Lemma Cmult_minus_one a : Cmult (Copp Cone) a = Copp a.
Proof. csolve. Qed.

(** ** The diffuser cell *)

Lemma negate_where_negb p psi :
  negate_where (fun i => negb (p i)) psi = fun i => Copp (negate_where p psi i).
Proof.
  extensionality i. unfold negate_where. destruct (p i); simpl; [csolve | reflexivity].
Qed.

Lemma apply_h_opp q psi :
  apply_h q (fun i => Copp (psi i)) = fun i => Copp (apply_h q psi i).
Proof.
  extensionality i. unfold apply_h. destruct (Nat.testbit i q); csolve.
Qed.

Lemma h_all_opp n psi :
  h_all n (fun i => Copp (psi i)) = fun i => Copp (h_all n psi i).
Proof.
  induction n as [|n IH]; [reflexivity|].
  rewrite !h_all_S, IH. apply apply_h_opp.
Qed.

(** The phase flips of the inline diffuser negate every amplitude but that of
    the all-zero state. *)
Lemma z_z_cz psi :
  apply_cz 0 1 (apply_z 1 (apply_z 0 psi)) =
    negate_where (fun i => negb (all_clear 2 i)) psi.
Proof.
  extensionality i. unfold apply_cz, apply_z, negate_where, all_clear.
  cbn [forallb seq].
  destruct (Nat.testbit i 0), (Nat.testbit i 1); cbn [negb andb]; csolve.
Qed.

(** The inline diffuser is the opposite of [diffuser(2)]'s action. *)
Lemma inline_diffuser_action_eq psi i :
  inline_diffuser_action psi i = Copp (diffuser_action 2 psi i).
Proof.
  unfold inline_diffuser_action.
  change (apply_h 1 (apply_h 0 psi)) with (h_all 2 psi).
  rewrite z_z_cz, negate_where_negb.
  change (apply_h 1 (apply_h 0 ?f)) with (h_all 2 f).
  rewrite h_all_opp, diffuser_action_eq by lia. reflexivity.
Qed.

(** ** The cells on a two-qubit circuit *)

Lemma draw_ok c w qc :
  nth_error (objects w) c = Some qc ->
  QC.draw c w = (Ok tt, mkWorld (objects w) (trace w ++ [Displayed "circuit"])).
Proof.
  intros E. unfold QC.draw.
  rewrite (bind_ok _ _ _ _ _ (lookup_ok _ _ _ E)). reflexivity.
Qed.

Lemma cell_oracle_ok gc w qc :
  nth_error (objects w) gc = Some qc ->
  num_qubits qc = 2 ->
  exists w',
    Notebook.cell_oracle gc w = (Ok tt, w') /\
    circuit_data gc w' = data qc ++ [CZGate 0 1].
Proof.
  intros E Hn. unfold Notebook.cell_oracle.
  erewrite bind_ok
    by (eapply (cz_ok _ _ _ _ _ 0 1); eauto; rewrite Hn; reflexivity).
  erewrite draw_ok by (eapply appended_lookup; eauto).
  eexists. split; [reflexivity|].
  unfold circuit_data. simpl objects.
  rewrite (appended_lookup _ _ _ _ E). reflexivity.
Qed.

Lemma cell_diffuser_ok gc w qc :
  nth_error (objects w) gc = Some qc ->
  num_qubits qc = 2 ->
  exists w',
    Notebook.cell_diffuser gc w = (Ok tt, w') /\
    circuit_data gc w' = data qc ++ inline_diffuser_gates.
Proof.
  intros E Hn. unfold Notebook.cell_diffuser.
  assert (Hqs : forall qc', num_qubits qc' = 2 ->
            resolve_qubits (num_qubits qc') [0; 1]%Z = Some [0; 1])
    by (intros qc' ->; reflexivity).
  assert (Hq0 : forall qc', num_qubits qc' = 2 ->
            resolve_qubit (num_qubits qc') 0 = Some 0)
    by (intros qc' ->; reflexivity).
  assert (Hq1 : forall qc', num_qubits qc' = 2 ->
            resolve_qubit (num_qubits qc') 1 = Some 1)
    by (intros qc' ->; reflexivity).
  erewrite bind_ok by (eapply (method_list_ok HGate); eauto).
  erewrite bind_ok
    by (eapply (method_list_ok ZGate); [eapply appended_lookup; eauto | eauto]).
  rewrite appended_app.
  erewrite bind_ok
    by (eapply (cz_ok _ _ _ _ _ 0 1);
        [eapply appended_lookup; eauto | simpl; eauto .. | discriminate]).
  rewrite appended_app.
  erewrite bind_ok
    by (eapply (method_list_ok HGate); [eapply appended_lookup; eauto | eauto]).
  rewrite appended_app.
  erewrite draw_ok by (eapply appended_lookup; eauto).
  eexists. split; [reflexivity|].
  unfold circuit_data. simpl objects.
  rewrite (appended_lookup _ _ _ _ E). reflexivity.
Qed.

(** ** Which instructions the code appends *)

Section ListedGates.

Local Abbreviation ok := appends_listed_gates_only.

Lemma ok_silent {A} (m : M A) : (forall w, trace (snd (m w)) = trace w) -> ok m.
Proof.
  intros H w. exists []. rewrite H, app_nil_r. split; reflexivity.
Qed.

Lemma ok_ret {A} (a : A) : ok (ret a).
Proof. apply ok_silent. reflexivity. Qed.

Lemma ok_raise {A} e : ok (@raise A e).
Proof. apply ok_silent. reflexivity. Qed.

Lemma ok_lookup c : ok (lookup c).
Proof.
  apply ok_silent. intros w. unfold lookup.
  destruct (nth_error (objects w) c); reflexivity.
Qed.

Lemma ok_allocate qc : ok (allocate qc).
Proof. apply ok_silent. reflexivity. Qed.

Lemma ok_log e : event_ok e = true -> ok (log e).
Proof.
  intros He w. exists [e]. simpl. rewrite He. split; reflexivity.
Qed.

Lemma ok_bind {A B} (m : M A) (f : A -> M B) :
  ok m -> (forall a, ok (f a)) -> ok (bind m f).
Proof.
  intros Hm Hf w. unfold bind.
  destruct (Hm w) as (evs & Ht & Hok).
  destruct (m w) as [[a|e] w1]; simpl in Ht.
  - destruct (Hf a w1) as (evs' & Ht' & Hok').
    exists (evs ++ evs'). rewrite Ht', Ht, app_assoc, forallb_app, Hok, Hok'.
    split; reflexivity.
  - exists evs. split; assumption.
Qed.

Lemma ok_for_each {A} (xs : list A) (body : A -> M unit) :
  (forall a, ok (body a)) -> ok (for_each xs body).
Proof.
  intros Hb. induction xs as [|a xs IH]; simpl.
  - apply ok_ret.
  - apply ok_bind; auto.
Qed.

Lemma ok_append_instruction c i :
  event_ok (Appended c i) = true -> ok (append_instruction c i).
Proof.
  intros He. unfold append_instruction.
  apply ok_bind; [apply ok_lookup|]. intros qc w.
  exists [Appended c i]. simpl trace. cbn [forallb]. rewrite He.
  split; reflexivity.
Qed.

Lemma ok_qubit_arg c q : ok (qubit_arg c q).
Proof.
  unfold qubit_arg. apply ok_bind; [apply ok_lookup|]. intros qc.
  destruct (resolve_qubit _ _); [apply ok_ret | apply ok_raise].
Qed.

Lemma ok_qubit_args c qs : ok (qubit_args c qs).
Proof.
  unfold qubit_args. apply ok_bind; [apply ok_lookup|]. intros qc.
  destruct (resolve_qubits _ _); [apply ok_ret | apply ok_raise].
Qed.

Lemma ok_qubit_spec_args c s : ok (QC.qubit_spec_args c s).
Proof.
  destruct s; simpl.
  - apply ok_bind; [apply ok_qubit_arg | intros; apply ok_ret].
  - apply ok_qubit_args.
Qed.

Lemma ok_h c s : ok (QC.h c s).
Proof.
  unfold QC.h. apply ok_bind; [apply ok_qubit_spec_args|]. intros ks.
  apply ok_for_each. intros k. apply ok_append_instruction. reflexivity.
Qed.

Lemma ok_x c s : ok (QC.x c s).
Proof.
  unfold QC.x. apply ok_bind; [apply ok_qubit_spec_args|]. intros ks.
  apply ok_for_each. intros k. apply ok_append_instruction. reflexivity.
Qed.

Lemma ok_z c s : ok (QC.z c s).
Proof.
  unfold QC.z. apply ok_bind; [apply ok_qubit_spec_args|]. intros ks.
  apply ok_for_each. intros k. apply ok_append_instruction. reflexivity.
Qed.

Lemma ok_cz c a b : ok (QC.cz c a b).
Proof.
  unfold QC.cz. apply ok_bind; [apply ok_qubit_arg|]. intros ka.
  apply ok_bind; [apply ok_qubit_arg|]. intros kb.
  destruct (ka =? kb); [apply ok_raise|].
  apply ok_append_instruction. reflexivity.
Qed.

Lemma ok_mct c controls target : ok (QC.mct c controls target).
Proof.
  unfold QC.mct. destruct controls as [|q0 rest]; [apply ok_raise|].
  apply ok_bind; [apply ok_qubit_args|]. intros ks.
  apply ok_bind; [apply ok_qubit_arg|]. intros t.
  destruct (QC.has_duplicates _); [apply ok_raise|].
  apply ok_append_instruction. reflexivity.
Qed.

Lemma ok_new_circuit n : ok (QC.new_circuit n).
Proof.
  unfold QC.new_circuit. destruct (n <? 0)%Z; [apply ok_raise | apply ok_allocate].
Qed.

Lemma ok_to_gate c : ok (QC.to_gate c).
Proof.
  unfold QC.to_gate. apply ok_bind; [apply ok_lookup|]. intros qc.
  destruct (negb _); [apply ok_raise|].
  destruct (forallb _ _); [apply ok_ret | apply ok_raise].
Qed.

Lemma ok_draw c : ok (QC.draw c).
Proof.
  unfold QC.draw. apply ok_bind; [apply ok_lookup|]. intros _.
  apply ok_log. reflexivity.
Qed.

Lemma ok_copy c : ok (QC.copy c).
Proof.
  unfold QC.copy. apply ok_bind; [apply ok_lookup|]. intros qc. apply ok_allocate.
Qed.

Lemma ok_measure_all c : ok (QC.measure_all c).
Proof.
  unfold QC.measure_all. apply ok_bind; [apply ok_lookup|]. intros qc.
  apply ok_bind.
  - unfold QC.add_clbits. apply ok_bind; [apply ok_lookup|]. intros qc'.
    apply ok_silent. reflexivity.
  - intros first_clbit. apply ok_bind.
    + apply ok_append_instruction. reflexivity.
    + intros _. apply ok_for_each. intros q.
      apply ok_append_instruction. reflexivity.
Qed.

Lemma ok_run_result q : ok (run_result q).
Proof.
  unfold run_result. apply ok_bind; [apply ok_log; reflexivity|]. intros _.
  destruct (execute _ _); apply ok_ret.
Qed.

Lemma ok_get_statevector r : ok (get_statevector r).
Proof.
  destruct r as [msg|[psi|] d]; simpl; first [apply ok_ret | apply ok_raise].
Qed.

Lemma ok_get_counts r : ok (get_counts r).
Proof.
  destruct r as [msg|s [d|]]; simpl; first [apply ok_ret | apply ok_raise].
Qed.

Lemma ok_initialize_s circuit qubits : ok (initialize_s circuit qubits).
Proof.
  unfold initialize_s. apply ok_bind.
  - apply ok_for_each. intros q. apply ok_h.
  - intros _. apply ok_ret.
Qed.

Lemma ok_diffuser nqubits : ok (diffuser nqubits).
Proof.
  unfold diffuser.
  repeat first
    [ apply ok_ret
    | apply ok_new_circuit
    | apply ok_h | apply ok_x | apply ok_mct | apply ok_to_gate
    | apply ok_for_each; intros ?
    | apply ok_bind; [| intros ?] ].
Qed.

Lemma ok_notebook_run : ok Notebook.run.
Proof.
  unfold Notebook.run, Notebook.build_circuit, Notebook.cell_new_circuit,
    Notebook.cell_initialize, Notebook.cell_oracle, Notebook.cell_diffuser,
    Notebook.cell_statevector, Notebook.cell_measure, QC.save_statevector,
    assemble, array_to_latex, plot_histogram.
  repeat first
    [ apply ok_ret
    | apply ok_new_circuit | apply ok_initialize_s | apply ok_draw
    | apply ok_h | apply ok_z | apply ok_cz | apply ok_copy | apply ok_lookup
    | apply ok_measure_all | apply ok_run_result
    | apply ok_get_statevector | apply ok_get_counts
    | apply ok_append_instruction; reflexivity
    | apply ok_log; reflexivity
    | apply ok_bind; [| intros ?] ].
Qed.

End ListedGates.

Lemma notebook_run_trace : trace (snd (Notebook.run empty_world)) = notebook_trace.
Proof. reflexivity. Qed.

(** ** Checks on concrete inputs *)

(** [diffuser(3)] evaluated on the empty store. *)
Example diffuser_3 :
  fst (diffuser 3 empty_world) =
    Ok (mkGate "U$_s$" 3
          [HGate 0; HGate 1; HGate 2; XGate 0; XGate 1; XGate 2;
           HGate 2; MCXGate [0; 1] 2; HGate 2;
           XGate 0; XGate 1; XGate 2; HGate 0; HGate 1; HGate 2]).
Proof. reflexivity. Qed.

(** A negative index counts from the last qubit; an index outside the
    circuit raises and leaves the gates appended before it. *)
Example initialize_s_negative_index :
  initialize_s 0 [-1]%Z (mkWorld [mkCircuit 2 0 []] []) =
    (Ok 0, mkWorld [mkCircuit 2 0 [HGate 1]] [Appended 0 (HGate 1)]).
Proof. reflexivity. Qed.

Example initialize_s_out_of_range :
  initialize_s 0 [0; 2]%Z (mkWorld [mkCircuit 2 0 []] []) =
    (Raise (CircuitError "Index out of range."),
     mkWorld [mkCircuit 2 0 [HGate 0]] [Appended 0 (HGate 0)]).
Proof. reflexivity. Qed.

(** The commented-out form of the diffuser cell appends a gate that is none
    of the five kinds: the composite gate [U$_s$]. *)
Example alternative_cell_appends_custom_gate :
  exists w,
    Notebook.cell_diffuser_alternative 0 (mkWorld [mkCircuit 2 0 []] []) = (Ok tt, w) /\
    circuit_data 0 w = [CustomGate "U$_s$" (diffuser_gates 2) [0; 1]] /\
    ~ appends_listed_gates_only (Notebook.cell_diffuser_alternative 0).
Proof.
  eexists. split; [vm_compute; reflexivity|]. split; [vm_compute; reflexivity|].
  intros Hok. destruct (Hok (mkWorld [mkCircuit 2 0 []] [])) as (evs & Ht & He).
  vm_compute in Ht. subst evs. vm_compute in He. discriminate He.
Qed.

(** ** Loops and sequencing *)

Lemma bind_assoc {A B D} (m : M A) (f : A -> M B) (g : B -> M D) w :
  bind (bind m f) g w = bind m (fun a => bind (f a) g) w.
Proof.
  unfold bind. destruct (m w) as [[a|e] w1]; reflexivity.
Qed.

Lemma for_each_app {A} (xs ys : list A) (body : A -> M unit) w :
  for_each (xs ++ ys) body w =
    bind (for_each xs body) (fun _ => for_each ys body) w.
Proof.
  revert w. induction xs as [|a xs IH]; intros w; simpl.
  - reflexivity.
  - rewrite bind_assoc. unfold bind at 1 2.
    destruct (body a w) as [[[]|e] w1]; [rewrite IH|]; reflexivity.
Qed.

Lemma h_int_raises c q w qc :
  nth_error (objects w) c = Some qc ->
  resolve_qubit (num_qubits qc) q = None ->
  QC.h c (QC.QInt q) w = (Raise (CircuitError "Index out of range."), w).
Proof.
  intros E Hq. unfold QC.h, QC.qubit_spec_args, qubit_arg, bind, lookup.
  rewrite E, Hq. reflexivity.
Qed.

(** ** Hadamards on the all-zero state *)

Lemma pow2_nonzero n : 2 ^ n <> 0.
Proof. apply Nat.pow_nonzero. discriminate. Qed.

Lemma clearbit_lt_pow2 i n : Nat.clearbit i n < 2 ^ n <-> i < 2 ^ S n.
Proof.
  rewrite <- !Nat.div_small_iff by apply pow2_nonzero.
  rewrite clearbit_div_pow2. lia.
Qed.

Lemma setbit_ge_pow2 i n : ~ Nat.setbit i n < 2 ^ n.
Proof.
  rewrite <- Nat.div_small_iff by apply pow2_nonzero.
  rewrite setbit_div_pow2. lia.
Qed.

(** Hadamard on qubits [0..n-1] of the all-zero state gives the uniform
    superposition of [n] qubits. *)
Lemma h_all_zero_state n : h_all n zero_state = uniform_superposition n.
Proof.
  induction n as [|n IH].
  - extensionality i. unfold h_all, apply_each, uniform_superposition.
    simpl fold_left. unfold zero_state, basis_state.
    change (2 ^ 0) with 1.
    destruct i as [|i]; simpl; [csolve | reflexivity].
  - rewrite h_all_S, IH. extensionality i.
    unfold apply_h, uniform_superposition.
    replace (Nat.setbit i n <? 2 ^ n) with false
      by (symmetry; apply Nat.ltb_ge, Nat.nlt_ge, setbit_ge_pow2).
    destruct (Nat.ltb_spec i (2 ^ S n)) as [Hlt|Hge].
    + replace (Nat.clearbit i n <? 2 ^ n) with true
        by (symmetry; apply Nat.ltb_lt, clearbit_lt_pow2, Hlt).
      destruct (Nat.testbit i n); apply C_ext; camp_unfold; simpl pow; ring.
    + replace (Nat.clearbit i n <? 2 ^ n) with false.
      * destruct (Nat.testbit i n); csolve.
      * symmetry. apply Nat.ltb_ge, Nat.nlt_ge. rewrite clearbit_lt_pow2. lia.
Qed.

Lemma probability_uniform_superposition n i :
  i < 2 ^ n -> probability (uniform_superposition n) i = (/ 2 ^ n)%R.
Proof.
  intros Hi. unfold probability, uniform_superposition.
  replace (i <? 2 ^ n) with true by (symmetry; apply Nat.ltb_lt, Hi).
  camp_unfold. rewrite <- (inv_sqrt2_pow_sqr n). ring.
Qed.

(** Hadamards commute, whatever the qubits. *)
Lemma apply_h_comm_any p q psi :
  apply_h p (apply_h q psi) = apply_h q (apply_h p psi).
Proof.
  destruct (Nat.eq_dec p q) as [->|Hne]; [reflexivity | apply apply_h_comm, Hne].
Qed.

Lemma apply_each_cons g q qs psi :
  apply_each g (q :: qs) psi = apply_each g qs (g q psi).
Proof. reflexivity. Qed.

Lemma apply_h_apply_each q qs : forall psi,
  apply_h q (apply_each apply_h qs psi) = apply_each apply_h qs (apply_h q psi).
Proof.
  induction qs as [|k qs IH]; intros psi; [reflexivity|].
  rewrite !apply_each_cons, IH, apply_h_comm_any. reflexivity.
Qed.

(** A layer of Hadamards applied twice is the identity. *)
Lemma apply_each_h_involutive qs : forall psi,
  apply_each apply_h qs (apply_each apply_h qs psi) = psi.
Proof.
  induction qs as [|k qs IH]; intros psi; [reflexivity|].
  rewrite !apply_each_cons, (apply_h_apply_each k qs (apply_h k psi)).
  rewrite apply_h_involutive. apply IH.
Qed.

(** ** [diffuser] below two qubits *)

Lemma firstn_length_app {A} (l l' : list A) : firstn (List.length l) (l ++ l') = l.
Proof. induction l as [|a l IH]; simpl; [reflexivity | f_equal; apply IH]. Qed.

Lemma nth_error_app_last {A} (l : list A) (a : A) :
  nth_error (l ++ [a]) (List.length l) = Some a.
Proof. induction l as [|b l IH]; simpl; auto. Qed.

Lemma diffuser_negative nqubits w :
  (nqubits < 0)%Z ->
  diffuser nqubits w =
    (Raise (CircuitError "Register size must be non-negative"), w).
Proof.
  intros Hn. unfold diffuser. apply bind_raise. unfold QC.new_circuit.
  replace (nqubits <? 0)%Z with true by (symmetry; apply Z.ltb_lt, Hn).
  reflexivity.
Qed.

Lemma diffuser_zero w :
  diffuser 0 w =
    (Raise (CircuitError "Index out of range."),
     mkWorld (objects w ++ [mkCircuit 0 0 []]) (trace w)).
Proof.
  unfold diffuser.
  erewrite bind_ok by reflexivity.
  change (range 0) with (@nil Z). simpl for_each.
  erewrite bind_ok by reflexivity.
  erewrite bind_ok by reflexivity.
  apply bind_raise.
  eapply h_int_raises; [apply nth_error_app_last | reflexivity].
Qed.

Lemma diffuser_one w :
  diffuser 1 w =
    (Raise (CircuitError
              "The number of control qubits must be in `[1, num_qubits-1]`"),
     mkWorld (objects w ++ [mkCircuit 1 0 [HGate 0; XGate 0; HGate 0]])
             (trace w ++
              map (Appended (List.length (objects w))) [HGate 0; XGate 0; HGate 0])).
Proof.
  set (w0 := mkWorld (objects w ++ [mkCircuit 1 0 []]) (trace w)).
  assert (E0 : nth_error (objects w0) (List.length (objects w)) =
               Some (mkCircuit 1 0 []))
    by apply nth_error_app_last.
  unfold diffuser.
  erewrite bind_ok with (w' := w0) by reflexivity.
  erewrite bind_ok
    by (eapply (for_each_method_ok HGate _ _ _ _ [0]); [exact E0 | reflexivity]).
  erewrite bind_ok
    by (eapply (for_each_method_ok XGate _ _ _ _ [0]);
        [eapply appended_lookup, E0 | reflexivity]).
  rewrite appended_app.
  erewrite bind_ok
    by (eapply (method_int_ok HGate _ _ _ _ 0);
        [eapply appended_lookup, E0 | reflexivity]).
  rewrite appended_app.
  erewrite bind_raise by reflexivity.
  f_equal. unfold appended. rewrite E0. unfold w0. simpl.
  rewrite update_app_r. reflexivity.
Qed.

(** ** The diffuser as a reflection *)

Lemma diffuser_action_minus_mean n psi i :
  1 <= n -> i < 2 ^ n ->
  diffuser_action n psi i = Cminus (psi i) (Cscale 2 (mean n psi)).
Proof.
  intros Hn Hi.
  rewrite diffuser_action_eq, h_negate_h, avg_mean by assumption.
  reflexivity.
Qed.

Lemma Rsum_ext f g m :
  (forall j, j < m -> f j = g j) -> Rsum f m = Rsum g m.
Proof.
  induction m as [|m IH]; intros H; simpl; auto.
  rewrite IH, H by (intros; try apply H; lia). reflexivity.
Qed.

(** Subtracting twice a constant [m] from every amplitude changes the sum of
    the squared moduli by the cross term and the square of [m]. *)
Lemma Rsum_norm2_shift (psi : State) (m : C) N :
  Rsum (fun i => Cnorm2 (Cminus (psi i) (Cscale 2 m))) N =
    (Rsum (fun i => Cnorm2 (psi i)) N
     - 4 * (re m * re (Csum psi N) + im m * im (Csum psi N))
     + 4 * INR N * Cnorm2 m)%R.
Proof.
  induction N as [|N IH].
  - simpl. camp_unfold. ring.
  - cbn [Rsum Csum]. rewrite IH, S_INR. camp_unfold. ring.
Qed.

Lemma INR_pow2 n : INR (2 ^ n) = (2 ^ n)%R.
Proof. rewrite pow_INR. reflexivity. Qed.

Lemma pow2_R_nonzero n : (2 ^ n <> 0)%R.
Proof. apply pow_nonzero. lra. Qed.

(** The diffuser keeps the total probability of every statevector. *)
Lemma diffuser_action_total_probability n psi :
  1 <= n ->
  total_probability n (diffuser_action n psi) = total_probability n psi.
Proof.
  intros Hn. unfold total_probability, probability.
  rewrite (Rsum_ext _ (fun i => Cnorm2 (Cminus (psi i) (Cscale 2 (mean n psi)))))
    by (intros j Hj; rewrite diffuser_action_minus_mean by assumption; reflexivity).
  rewrite Rsum_norm2_shift, INR_pow2. unfold mean.
  pose proof (pow2_R_nonzero n) as Hp.
  camp_unfold. field. exact Hp.
Qed.

Lemma Csum_const c N : Csum (fun _ => c) N = Cscale (INR N) c.
Proof.
  induction N as [|N IH].
  - simpl. csolve.
  - cbn [Csum]. rewrite IH, S_INR. csolve.
Qed.

Lemma mean_uniform_superposition n :
  mean n (uniform_superposition n) = RtoC (inv_sqrt2 ^ n).
Proof.
  unfold mean.
  rewrite (Csum_ext _ (fun _ => RtoC (inv_sqrt2 ^ n))).
  - rewrite Csum_const, INR_pow2.
    pose proof (pow2_R_nonzero n) as Hp.
    apply C_ext; camp_unfold; field; exact Hp.
  - intros j Hj. unfold uniform_superposition.
    replace (j <? 2 ^ n) with true by (symmetry; apply Nat.ltb_lt, Hj).
    reflexivity.
Qed.

(** ** Running the simulator *)

Lemma execute_app l1 l2 st :
  execute (l1 ++ l2) st =
    match execute l1 st with
    | Some st' => execute l2 st'
    | None => None
    end.
Proof.
  revert st. induction l1 as [|i l1 IH]; intros st; simpl; auto.
  destruct (execute_instruction i st); auto.
Qed.

(** On gates only, the simulator computes the unitary and touches neither
    the saved statevector nor the measurement record. *)
Lemma execute_unitary l : forall psi psi' s m,
  unitary l psi = Some psi' ->
  execute l (mkSim psi s m) = Some (mkSim psi' s m).
Proof.
  induction l as [|i l IH]; intros psi psi' s m H; simpl in *.
  - injection H as <-. reflexivity.
  - destruct i; simpl in *; try discriminate; apply IH, H.
Qed.

Lemma execute_instruction_custom i st :
  is_custom i = true -> execute_instruction i st = None.
Proof. destruct i; simpl; try discriminate; reflexivity. Qed.

Lemma execute_instruction_not_custom i st :
  is_custom i = false -> exists st', execute_instruction i st = Some st'.
Proof. destruct i; simpl; try discriminate; intros _; eexists; reflexivity. Qed.

(** The simulator fails exactly on the circuits that hold a composite gate. *)
Lemma execute_none_iff l : forall st,
  execute l st = None <-> existsb is_custom l = true.
Proof.
  induction l as [|i l IH]; intros st; simpl.
  - split; discriminate.
  - destruct (is_custom i) eqn:Ei.
    + rewrite (execute_instruction_custom _ _ Ei). simpl. tauto.
    + destruct (execute_instruction_not_custom i st Ei) as (st' & ->).
      simpl. apply IH.
Qed.


Lemma copy_ok c w qc :
  nth_error (objects w) c = Some qc ->
  QC.copy c w =
    (Ok (List.length (objects w)), mkWorld (objects w ++ [qc]) (trace w)).
Proof.
  intros E. unfold QC.copy.
  rewrite (bind_ok _ _ _ _ _ (lookup_ok _ _ _ E)). reflexivity.
Qed.

Lemma nth_error_app_old {A} (l l' : list A) k a :
  nth_error l k = Some a -> nth_error (l ++ l') k = Some a.
Proof.
  intros H. rewrite nth_error_app1; [exact H|].
  apply nth_error_Some. congruence.
Qed.

(** The statevector cell up to the simulator's result: the circuit is
    copied, the copy saves its statevector and is executed. *)
Lemma cell_statevector_run gc w qc :
  nth_error (objects w) gc = Some qc ->
  let sim := List.length (objects w) in
  let qobj :=
    mkCircuit (num_qubits qc) (num_clbits qc) (data qc ++ [SaveStatevector]) in
  let w4 :=
    mkWorld (objects w ++ [qobj])
            (trace w ++ [Appended sim SaveStatevector; Simulated (data qobj)]) in
  Notebook.cell_statevector gc w =
    match execute (data qc) (mkSim zero_state None None) with
    | Some st =>
        (Ok (current st),
         mkWorld (objects w4) (trace w4 ++ [Displayed "statevector"]))
    | None =>
        (Raise (QiskitError "contains invalid instructions for statevector method"),
         w4)
    end.
Proof.
  intros E sim qobj w4. unfold Notebook.cell_statevector.
  rewrite (bind_ok _ _ _ _ _ (copy_ok _ _ _ E)).
  set (w1 := mkWorld (objects w ++ [qc]) (trace w)).
  assert (E1 : nth_error (objects w1) sim = Some qc) by apply nth_error_app_last.
  unfold QC.save_statevector.
  rewrite (bind_ok _ _ _ _ _ (append_instruction_ok _ SaveStatevector _ _ E1)).
  assert (Hw2 : appended sim [SaveStatevector] w1 =
                mkWorld (objects w ++ [qobj])
                        (trace w ++ [Appended sim SaveStatevector])).
  { unfold appended. rewrite E1. unfold w1, sim. simpl.
    rewrite update_app_r. reflexivity. }
  rewrite Hw2.
  set (w2 := mkWorld (objects w ++ [qobj]) (trace w ++ [Appended sim SaveStatevector])).
  assert (E2 : nth_error (objects w2) sim = Some qobj) by apply nth_error_app_last.
  unfold assemble. rewrite (bind_ok _ _ _ _ _ (lookup_ok _ _ _ E2)).
  unfold run_result, bind, log.
  change (data qobj) with (data qc ++ [SaveStatevector]).
  simpl objects. simpl trace. rewrite execute_app.
  destruct (execute (data qc) (mkSim zero_state None None)) as [st|]; simpl.
  - unfold w4. simpl. rewrite <- !app_assoc. reflexivity.
  - unfold w4. simpl. rewrite <- !app_assoc. reflexivity.
Qed.

(** [measure_all] widens the classical register by the number of qubits and
    appends a barrier and the measurements. *)
Lemma measure_all_ok c w qc :
  nth_error (objects w) c = Some qc ->
  let added :=
    Barrier (seq 0 (num_qubits qc)) ::
    map (fun q => Measure q (num_clbits qc + q)) (seq 0 (num_qubits qc)) in
  QC.measure_all c w =
    (Ok tt,
     mkWorld
       (update (objects w) c
          (mkCircuit (num_qubits qc) (num_clbits qc + num_qubits qc)
             (data qc ++ added)))
       (trace w ++ map (Appended c) added)).
Proof.
  intros E added. unfold QC.measure_all.
  rewrite (bind_ok _ _ _ _ _ (lookup_ok _ _ _ E)).
  set (qc1 := mkCircuit (num_qubits qc) (num_clbits qc + num_qubits qc) (data qc)).
  set (w1 := mkWorld (update (objects w) c qc1) (trace w)).
  assert (E1 : nth_error (objects w1) c = Some qc1)
    by (eapply nth_error_update_same, E).
  erewrite bind_ok with (a := num_clbits qc) (w' := w1).
  2:{ unfold QC.add_clbits.
      rewrite (bind_ok _ _ _ _ _ (lookup_ok _ _ _ E)). reflexivity. }
  erewrite bind_ok by (eapply append_instruction_ok, E1).
  erewrite (for_each_append (fun q => Measure q (num_clbits qc + q)))
    by (eapply appended_lookup, E1).
  rewrite appended_app. unfold appended. rewrite E1. unfold w1. simpl.
  rewrite update_update. reflexivity.
Qed.

(** ** The inline diffuser *)

Lemma inline_diffuser_action_inversion psi i :
  i < 4 -> inline_diffuser_action psi i = inversion_about_mean 2 psi i.
Proof.
  intros Hi. rewrite inline_diffuser_action_eq.
  rewrite diffuser_action_inversion by (simpl; lia).
  csolve.
Qed.

Lemma inline_diffuser_action_reflection psi :
  inline_diffuser_action psi =
    h_all 2 (negate_where (fun i => negb (all_clear 2 i)) (h_all 2 psi)).
Proof.
  unfold inline_diffuser_action.
  change (apply_h 1 (apply_h 0 psi)) with (h_all 2 psi).
  rewrite z_z_cz. reflexivity.
Qed.

Lemma inline_diffuser_action_involutive psi :
  inline_diffuser_action (inline_diffuser_action psi) = psi.
Proof.
  rewrite !inline_diffuser_action_reflection.
  rewrite h_all_involutive, negate_where_involutive. apply h_all_involutive.
Qed.

Lemma cell_diffuser_run gc w qc :
  nth_error (objects w) gc = Some qc ->
  num_qubits qc = 2 ->
  Notebook.cell_diffuser gc w =
    (Ok tt,
     mkWorld (objects (appended gc inline_diffuser_gates w))
             (trace (appended gc inline_diffuser_gates w) ++ [Displayed "circuit"])).
Proof.
  intros E Hn. unfold Notebook.cell_diffuser.
  assert (Hqs : forall qc', num_qubits qc' = 2 ->
            resolve_qubits (num_qubits qc') [0; 1]%Z = Some [0; 1])
    by (intros qc' ->; reflexivity).
  erewrite bind_ok by (eapply (method_list_ok HGate); eauto).
  erewrite bind_ok
    by (eapply (method_list_ok ZGate); [eapply appended_lookup; eauto | eauto]).
  rewrite appended_app.
  erewrite bind_ok
    by (eapply (cz_ok _ _ _ _ _ 0 1);
        [eapply appended_lookup; eauto
        | simpl; rewrite Hn; reflexivity
        | simpl; rewrite Hn; reflexivity
        | discriminate]).
  rewrite appended_app.
  erewrite bind_ok
    by (eapply (method_list_ok HGate); [eapply appended_lookup; eauto | eauto]).
  rewrite appended_app.
  erewrite draw_ok by (eapply appended_lookup; eauto).
  reflexivity.
Qed.

(** ** Qubits left alone *)

(** A Hadamard on another qubit keeps at zero the amplitudes in which qubit
    [q] is set. *)
Lemma apply_h_keeps_clear q k psi :
  q <> k ->
  (forall i, Nat.testbit i q = true -> psi i = Czero) ->
  forall i, Nat.testbit i q = true -> apply_h k psi i = Czero.
Proof.
  intros Hne Hpsi i Hi. unfold apply_h.
  rewrite !Hpsi
    by (rewrite ?testbit_clearbit_other, ?testbit_setbit_other by assumption;
        exact Hi).
  destruct (Nat.testbit i k); csolve.
Qed.

Lemma apply_each_h_keeps_clear q ks : forall psi,
  ~ In q ks ->
  (forall i, Nat.testbit i q = true -> psi i = Czero) ->
  forall i, Nat.testbit i q = true -> apply_each apply_h ks psi i = Czero.
Proof.
  induction ks as [|k ks IH]; intros psi Hin Hpsi; [exact Hpsi|].
  rewrite apply_each_cons. apply IH.
  - intros H. apply Hin. right. exact H.
  - apply apply_h_keeps_clear; [|exact Hpsi].
    intros ->. apply Hin. left. reflexivity.
Qed.

Lemma notebook_run_result :
  fst (Notebook.run empty_world) = Ok (grover_state, probability grover_state).
Proof. reflexivity. Qed.

(** ** The oracle and the order of Hadamards *)

Lemma Cnorm2_opp a : Cnorm2 (Copp a) = Cnorm2 a.
Proof. camp_unfold. ring. Qed.

Lemma apply_cz_involutive a b psi : apply_cz a b (apply_cz a b psi) = psi.
Proof.
  extensionality i. unfold apply_cz.
  destruct (Nat.testbit i a && Nat.testbit i b); [csolve | reflexivity].
Qed.

Lemma probability_apply_cz a b psi i :
  probability (apply_cz a b psi) i = probability psi i.
Proof.
  unfold probability, apply_cz.
  destruct (Nat.testbit i a && Nat.testbit i b); [apply Cnorm2_opp | reflexivity].
Qed.

(** A layer of Hadamards acts the same in whatever order its qubits come. *)
Lemma apply_each_h_permutation ks ks' :
  Permutation ks ks' ->
  forall psi, apply_each apply_h ks psi = apply_each apply_h ks' psi.
Proof.
  induction 1 as [|k l l' _ IH|k k' l|l l' l'' _ IH1 _ IH2]; intros psi.
  - reflexivity.
  - rewrite !apply_each_cons. apply IH.
  - rewrite !apply_each_cons, apply_h_comm_any. reflexivity.
  - rewrite IH1. apply IH2.
Qed.

(** ** Exceptions pass through sequences *)

Lemma handler_free_for_each {A} (xs : list A) (body : A -> M unit) :
  (forall a, handler_free (body a)) -> handler_free (for_each xs body).
Proof.
  intros Hb. induction xs as [|a xs IH]; simpl.
  - apply hf_ret.
  - apply hf_bind; [apply Hb | intros _; exact IH].
Qed.

(** A call that is reached is a call into the SDK. *)
Lemma reaches_sdk_call {A B} (m : M A) w (p : M B) w0 :
  reaches m w p w0 -> sdk_call p.
Proof. induction 1; assumption. Qed.

(** Whatever a reached call raises comes out of the whole sequence, with the
    same exception and the world as the call left it. *)
Lemma reaches_propagates {A B} (m : M A) w (p : M B) w0 :
  reaches m w p w0 ->
  forall e w', p w0 = (Raise e, w') -> m w = (Raise e, w').
Proof.
  induction 1 as [A p w _|A B m f w C p w0 _ IH|A B m f w a w1 C p w0 Hm _ IH];
    intros e w' Hp.
  - exact Hp.
  - apply bind_raise, IH, Hp.
  - rewrite (bind_ok _ _ _ _ _ Hm). apply IH, Hp.
Qed.

(** Whatever comes out of a handler-free sequence was raised by a call it
    reached. *)
Lemma handler_free_origin {A} (m : M A) :
  handler_free m ->
  forall w e w', m w = (Raise e, w') ->
  exists (B : Type) (p : M B) (w0 : World),
    reaches m w p w0 /\ p w0 = (Raise e, w').
Proof.
  induction 1 as [A a|A p Hp|A B m f _ IHm _ IHf]; intros w e w' Hr.
  - discriminate Hr.
  - exists A, p, w. split; [apply reaches_call, Hp | exact Hr].
  - unfold bind in Hr. destruct (m w) as [[a|e1] w1] eqn:Em.
    + destruct (IHf a w1 e w' Hr) as (C & p & w0 & Hreach & Hp).
      exists C, p, w0. split; [eapply reaches_next; eauto | exact Hp].
    + injection Hr as <- <-.
      destruct (IHm w e1 w1 Em) as (C & p & w0 & Hreach & Hp).
      exists C, p, w0. split; [apply reaches_first, Hreach | exact Hp].
Qed.

Ltac handler_free_tac :=
  repeat first
    [ apply hf_ret
    | apply hf_call; constructor
    | apply handler_free_for_each; intros ?
    | apply hf_bind; [| intros ?] ].

Lemma handler_free_initialize_s circuit qubits :
  handler_free (initialize_s circuit qubits).
Proof. unfold initialize_s. handler_free_tac. Qed.

Lemma handler_free_diffuser nqubits : handler_free (diffuser nqubits).
Proof. unfold diffuser. handler_free_tac. Qed.

Lemma handler_free_cell_initialize gc : handler_free (Notebook.cell_initialize gc).
Proof.
  unfold Notebook.cell_initialize.
  apply hf_bind; [apply handler_free_initialize_s | intros c; handler_free_tac].
Qed.

Lemma handler_free_cell_oracle gc : handler_free (Notebook.cell_oracle gc).
Proof. unfold Notebook.cell_oracle. handler_free_tac. Qed.

Lemma handler_free_cell_diffuser gc : handler_free (Notebook.cell_diffuser gc).
Proof. unfold Notebook.cell_diffuser. handler_free_tac. Qed.

Lemma handler_free_cell_diffuser_alternative gc :
  handler_free (Notebook.cell_diffuser_alternative gc).
Proof.
  unfold Notebook.cell_diffuser_alternative.
  apply hf_bind; [apply handler_free_diffuser | intros g; handler_free_tac].
Qed.

Lemma handler_free_cell_statevector gc : handler_free (Notebook.cell_statevector gc).
Proof. unfold Notebook.cell_statevector. handler_free_tac. Qed.

Lemma handler_free_cell_measure gc : handler_free (Notebook.cell_measure gc).
Proof. unfold Notebook.cell_measure. handler_free_tac. Qed.

Lemma handler_free_build_circuit : handler_free Notebook.build_circuit.
Proof.
  unfold Notebook.build_circuit, Notebook.cell_new_circuit.
  apply hf_bind; [apply hf_call; constructor | intros c].
  apply hf_bind; [apply handler_free_cell_initialize | intros c'].
  apply hf_bind; [apply handler_free_cell_oracle | intros _].
  apply hf_bind; [apply handler_free_cell_diffuser | intros _].
  apply hf_ret.
Qed.

Lemma handler_free_run : handler_free Notebook.run.
Proof.
  unfold Notebook.run.
  apply hf_bind; [apply handler_free_build_circuit | intros c].
  apply hf_bind; [apply handler_free_cell_statevector | intros psi].
  apply hf_bind; [apply handler_free_cell_measure | intros counts].
  apply hf_ret.
Qed.

(** The last cell of the checkpoint copy under the name its traceback
    records: the measurements are appended, then the name is not found. *)
Lemma checkpoint_cell_measure_sim gc w qc :
  nth_error (objects w) gc = Some qc ->
  exists w',
    Checkpoint.cell_measure "sim" gc w = (Raise (NameError "sim"), w') /\
    circuit_data gc w' =
      data qc ++
      Barrier (seq 0 (num_qubits qc)) ::
      map (fun q => Measure q (num_clbits qc + q)) (seq 0 (num_qubits qc)).
Proof.
  intros E. unfold Checkpoint.cell_measure.
  pose proof (measure_all_ok _ _ _ E) as Hm. cbv zeta in Hm.
  rewrite (bind_ok _ _ _ _ _ Hm).
  match goal with
  | |- context [mkWorld (update (objects w) gc ?c) ?t] =>
      set (qc' := c); set (w1 := mkWorld (update (objects w) gc qc') t)
  end.
  assert (E1 : nth_error (objects w1) gc = Some qc')
    by (eapply nth_error_update_same, E).
  unfold assemble. rewrite (bind_ok _ _ _ _ _ (lookup_ok _ _ _ E1)).
  eexists. split; [reflexivity|].
  unfold circuit_data. rewrite E1. reflexivity.
Qed.

(** * The claims *)

(** C1. The notebook's circuit -- Hadamard on both qubits, the oracle
    CZ(0,1), then the inline diffuser H,H; Z,Z; CZ(0,1); H,H -- run from the
    all-zero state yields a statevector that gives probability 1 to [|11>]
    (index 3) and probability 0 to [|00>], [|01>] and [|10>]. *)
Theorem C1_grover_circuit_finds_11 :
  exists (grover_circuit : ref) (w : World) (statevec : State) (counts : nat -> R),
    Notebook.build_circuit empty_world = (Ok grover_circuit, w) /\
    circuit_data grover_circuit w =
      [HGate 0; HGate 1] ++ [CZGate 0 1] ++ inline_diffuser_gates /\
    fst (Notebook.run empty_world) = Ok (statevec, counts) /\
    unitary (circuit_data grover_circuit w) zero_state = Some statevec /\
    probability statevec 3 = 1%R /\
    probability statevec 0 = 0%R /\
    probability statevec 1 = 0%R /\
    probability statevec 2 = 0%R.
Proof.
  destruct build_circuit_data as (w & Hb & Hd).
  destruct notebook_run_statevector as (counts & Hrun).
  exists 0, w, grover_state, counts.
  destruct grover_state_amps as (H0 & H1 & H2 & H3).
  repeat split; try assumption.
  - rewrite Hd. apply unitary_grover_gates.
  - unfold probability. rewrite H3. camp_unfold. ring.
  - unfold probability. rewrite H0. camp_unfold. ring.
  - unfold probability. rewrite H1. camp_unfold. ring.
  - unfold probability. rewrite H2. camp_unfold. ring.
Qed.

(** C2. For every [nqubits >= 2], [diffuser(nqubits)] returns a gate whose
    definition is H on every qubit, X on every qubit, H on the last qubit,
    the multi-controlled Toffoli with controls [0..nqubits-2] and target
    [nqubits-1], H on the last qubit, X on every qubit, H on every qubit,
    and whose unitary is the inversion about the mean [2|s><s| - I] up to a
    global phase. *)
Theorem C2_diffuser_inverts_about_the_mean (nqubits : Z) (w : World) :
  (2 <= nqubits)%Z ->
  exists (U_s : Gate) (w' : World) (phase : C),
    diffuser nqubits w = (Ok U_s, w') /\
    gate_definition U_s =
      (let n := Z.to_nat nqubits in
       map HGate (seq 0 n) ++ map XGate (seq 0 n) ++
       [HGate (n - 1); MCXGate (seq 0 (n - 1)) (n - 1); HGate (n - 1)] ++
       map XGate (seq 0 n) ++ map HGate (seq 0 n)) /\
    Cnorm2 phase = 1%R /\
    forall psi : State, exists psi' : State,
      gate_unitary U_s psi = Some psi' /\
      forall i, i < 2 ^ Z.to_nat nqubits ->
        psi' i = Cmult phase (inversion_about_mean (Z.to_nat nqubits) psi i).
Proof.
  intros Hn. pose proof (diffuser_ok nqubits w Hn) as Hd. cbv zeta in Hd.
  eexists _, _, (Copp Cone). split; [exact Hd|].
  split; [reflexivity|]. split; [apply Cnorm2_minus_one|].
  intros psi. exists (diffuser_action (Z.to_nat nqubits) psi).
  split.
  - unfold gate_unitary. simpl gate_definition. apply unitary_diffuser_gates.
  - intros i Hi. rewrite Cmult_minus_one.
    apply diffuser_action_inversion; [lia | assumption].
Qed.

Lemma C2_witness :
  (2 <= 2)%Z /\
  exists (U_s : Gate) (w' : World) (phase : C),
    diffuser 2 empty_world = (Ok U_s, w') /\
    gate_definition U_s =
      (let n := Z.to_nat 2 in
       map HGate (seq 0 n) ++ map XGate (seq 0 n) ++
       [HGate (n - 1); MCXGate (seq 0 (n - 1)) (n - 1); HGate (n - 1)] ++
       map XGate (seq 0 n) ++ map HGate (seq 0 n)) /\
    Cnorm2 phase = 1%R /\
    forall psi : State, exists psi' : State,
      gate_unitary U_s psi = Some psi' /\
      forall i, i < 2 ^ Z.to_nat 2 ->
        psi' i = Cmult phase (inversion_about_mean (Z.to_nat 2) psi i).
Proof.
  split; [lia | apply (C2_diffuser_inverts_about_the_mean 2 empty_world); lia].
Defined.

(** C3. The oracle cell appends CZ(0,1) to the two-qubit circuit, and that
    gate negates the amplitude of [|11>] (index 3) of every statevector and
    leaves those of [|00>], [|01>] and [|10>] unchanged. *)
Theorem C3_oracle_marks_11 (w : World) (grover_circuit : ref) (qc : QuantumCircuit) :
  nth_error (objects w) grover_circuit = Some qc ->
  num_qubits qc = 2 ->
  (exists w',
     Notebook.cell_oracle grover_circuit w = (Ok tt, w') /\
     circuit_data grover_circuit w' = data qc ++ [CZGate 0 1]) /\
  forall psi : State, exists psi' : State,
    unitary [CZGate 0 1] psi = Some psi' /\
    psi' 3 = Copp (psi 3) /\
    psi' 0 = psi 0 /\ psi' 1 = psi 1 /\ psi' 2 = psi 2.
Proof.
  intros E Hn. split.
  - eapply cell_oracle_ok; eauto.
  - intros psi. exists (apply_cz 0 1 psi). repeat split.
Qed.

Lemma C3_witness :
  nth_error (objects (mkWorld [mkCircuit 2 0 [HGate 0; HGate 1]] [])) 0 =
    Some (mkCircuit 2 0 [HGate 0; HGate 1]) /\
  num_qubits (mkCircuit 2 0 [HGate 0; HGate 1]) = 2 /\
  (exists w',
     Notebook.cell_oracle 0 (mkWorld [mkCircuit 2 0 [HGate 0; HGate 1]] []) =
       (Ok tt, w') /\
     circuit_data 0 w' = data (mkCircuit 2 0 [HGate 0; HGate 1]) ++ [CZGate 0 1]) /\
  forall psi : State, exists psi' : State,
    unitary [CZGate 0 1] psi = Some psi' /\
    psi' 3 = Copp (psi 3) /\
    psi' 0 = psi 0 /\ psi' 1 = psi 1 /\ psi' 2 = psi 2.
Proof.
  split; [reflexivity|]. split; [reflexivity|].
  apply (C3_oracle_marks_11 (mkWorld [mkCircuit 2 0 [HGate 0; HGate 1]] []) 0
           (mkCircuit 2 0 [HGate 0; HGate 1])); reflexivity.
Defined.

(** C4. The inline diffuser the cell applies (H on qubits 0 and 1, Z on
    qubits 0 and 1, CZ(0,1), H on qubits 0 and 1) and the gate returned by
    the commented-out [diffuser(2)] have the same unitary up to a global
    phase. *)
Theorem C4_inline_diffuser_matches_diffuser_2
    (w : World) (grover_circuit : ref) (qc : QuantumCircuit) :
  nth_error (objects w) grover_circuit = Some qc ->
  num_qubits qc = 2 ->
  (exists w1,
     Notebook.cell_diffuser grover_circuit w = (Ok tt, w1) /\
     circuit_data grover_circuit w1 =
       data qc ++ [HGate 0; HGate 1; ZGate 0; ZGate 1; CZGate 0 1; HGate 0; HGate 1]) /\
  exists (U_s : Gate) (w2 : World) (phase : C),
    diffuser Notebook.n w = (Ok U_s, w2) /\
    Cnorm2 phase = 1%R /\
    forall psi : State, exists psi1 psi2 : State,
      unitary [HGate 0; HGate 1; ZGate 0; ZGate 1; CZGate 0 1; HGate 0; HGate 1] psi
        = Some psi1 /\
      gate_unitary U_s psi = Some psi2 /\
      forall i, psi1 i = Cmult phase (psi2 i).
Proof.
  intros E Hn. split.
  - eapply cell_diffuser_ok; eauto.
  - assert (H2 : (2 <= Notebook.n)%Z) by (unfold Notebook.n; lia).
    pose proof (diffuser_ok Notebook.n w H2) as Hd. cbv zeta in Hd.
    eexists _, _, (Copp Cone). split; [exact Hd|].
    split; [apply Cnorm2_minus_one|].
    intros psi.
    exists (inline_diffuser_action psi), (diffuser_action 2 psi).
    split; [reflexivity|]. split.
    + unfold gate_unitary. simpl gate_definition. apply unitary_diffuser_gates.
    + intros i. rewrite Cmult_minus_one. apply inline_diffuser_action_eq.
Qed.

Lemma C4_witness :
  nth_error (objects (mkWorld [mkCircuit 2 0 []] [])) 0 = Some (mkCircuit 2 0 []) /\
  num_qubits (mkCircuit 2 0 []) = 2 /\
  (exists w1,
     Notebook.cell_diffuser 0 (mkWorld [mkCircuit 2 0 []] []) = (Ok tt, w1) /\
     circuit_data 0 w1 =
       data (mkCircuit 2 0 []) ++
       [HGate 0; HGate 1; ZGate 0; ZGate 1; CZGate 0 1; HGate 0; HGate 1]) /\
  exists (U_s : Gate) (w2 : World) (phase : C),
    diffuser Notebook.n (mkWorld [mkCircuit 2 0 []] []) = (Ok U_s, w2) /\
    Cnorm2 phase = 1%R /\
    forall psi : State, exists psi1 psi2 : State,
      unitary [HGate 0; HGate 1; ZGate 0; ZGate 1; CZGate 0 1; HGate 0; HGate 1] psi
        = Some psi1 /\
      gate_unitary U_s psi = Some psi2 /\
      forall i, psi1 i = Cmult phase (psi2 i).
Proof.
  split; [reflexivity|]. split; [reflexivity|].
  apply (C4_inline_diffuser_matches_diffuser_2 (mkWorld [mkCircuit 2 0 []] []) 0
           (mkCircuit 2 0 [])); reflexivity.
Defined.

(** C5. [initialize_s(circuit, qubits)], given indices of the circuit's
    qubits, appends exactly one Hadamard gate per element of [qubits], in
    list order, to the given circuit object, adds nothing else, leaves every
    other object alone and returns the same reference; [diffuser] appends
    its gates to a circuit object (one it allocates). *)
Theorem C5_initialize_s_and_diffuser_append_gates
    (w : World) (circuit : ref) (qc : QuantumCircuit)
    (qubits : list Z) (ks : list nat) (nqubits : Z) :
  nth_error (objects w) circuit = Some qc ->
  resolve_qubits (num_qubits qc) qubits = Some ks ->
  (2 <= nqubits)%Z ->
  (List.length ks = List.length qubits /\
   initialize_s circuit qubits w =
     (Ok circuit,
      mkWorld
        (update (objects w) circuit
           (mkCircuit (num_qubits qc) (num_clbits qc) (data qc ++ map HGate ks)))
        (trace w ++ map (Appended circuit) (map HGate ks)))) /\
  (exists (U_s : Gate) (w' : World),
     diffuser nqubits w = (Ok U_s, w') /\
     objects w' =
       objects w ++ [mkCircuit (Z.to_nat nqubits) 0 (gate_definition U_s)] /\
     trace w' =
       trace w ++ map (Appended (List.length (objects w))) (gate_definition U_s) /\
     gate_definition U_s <> []).
Proof.
  intros E Hks Hn. split; [split|].
  - clear - Hks. revert ks Hks.
    induction qubits as [|q qubits IH]; intros ks Hks; simpl in Hks.
    + injection Hks as <-. reflexivity.
    + destruct (resolve_qubit (num_qubits qc) q); try discriminate.
      destruct (resolve_qubits (num_qubits qc) qubits); try discriminate.
      injection Hks as <-. simpl. f_equal. apply IH. reflexivity.
  - unfold initialize_s.
    erewrite bind_ok by (eapply (for_each_method_ok HGate); eauto).
    unfold ret, appended. rewrite E. reflexivity.
  - pose proof (diffuser_ok nqubits w Hn) as Hd. cbv zeta in Hd.
    eexists _, _. split; [exact Hd|]. simpl.
    repeat split.
    unfold diffuser_gates.
    replace (Z.to_nat nqubits) with (S (Z.to_nat nqubits - 1)) at 1 by lia.
    rewrite seq_S, map_app. simpl.
    intros Habs. apply (f_equal (@List.length _)) in Habs.
    rewrite !length_app in Habs. simpl in Habs. lia.
Qed.

Lemma C5_witness :
  nth_error (objects (mkWorld [mkCircuit 2 0 []] [])) 0 = Some (mkCircuit 2 0 []) /\
  resolve_qubits (num_qubits (mkCircuit 2 0 [])) [0; 1]%Z = Some [0; 1] /\
  (2 <= 2)%Z /\
  (List.length [0; 1] = List.length [0; 1]%Z /\
   initialize_s 0 [0; 1]%Z (mkWorld [mkCircuit 2 0 []] []) =
     (Ok 0,
      mkWorld
        (update (objects (mkWorld [mkCircuit 2 0 []] [])) 0
           (mkCircuit (num_qubits (mkCircuit 2 0 [])) (num_clbits (mkCircuit 2 0 []))
              (data (mkCircuit 2 0 []) ++ map HGate [0; 1])))
        (trace (mkWorld [mkCircuit 2 0 []] []) ++
         map (Appended 0) (map HGate [0; 1])))) /\
  (exists (U_s : Gate) (w' : World),
     diffuser 2 (mkWorld [mkCircuit 2 0 []] []) = (Ok U_s, w') /\
     objects w' =
       objects (mkWorld [mkCircuit 2 0 []] []) ++
       [mkCircuit (Z.to_nat 2) 0 (gate_definition U_s)] /\
     trace w' =
       trace (mkWorld [mkCircuit 2 0 []] []) ++
       map (Appended (List.length (objects (mkWorld [mkCircuit 2 0 []] []))))
         (gate_definition U_s) /\
     gate_definition U_s <> []).
Proof.
  split; [reflexivity|]. split; [reflexivity|]. split; [lia|].
  apply (C5_initialize_s_and_diffuser_append_gates
           (mkWorld [mkCircuit 2 0 []] []) 0 (mkCircuit 2 0 []) [0; 1]%Z [0; 1] 2);
    [reflexivity | reflexivity | lia].
Defined.

(** C6. Every gate the repository's code appends to a circuit --
    [initialize_s] and [diffuser] at any arguments, and the notebook run top
    to bottom from any store -- is a Hadamard, Pauli-X, Pauli-Z, controlled-Z
    or multi-controlled Toffoli gate, each carrying the indices of its
    qubits; the only other appended instructions are not gates (the saved
    statevector, the barrier and the measurements). *)
Theorem C6_only_listed_gates_are_appended :
  (forall circuit qubits, appends_listed_gates_only (initialize_s circuit qubits)) /\
  (forall nqubits, appends_listed_gates_only (diffuser nqubits)) /\
  appends_listed_gates_only Notebook.run /\
  (forall i,
     In i (circuit_data 0 (snd (Notebook.run empty_world))) ->
     is_gate i = true ->
     exists kind, gate_kind i = Some kind).
Proof.
  split; [exact ok_initialize_s|]. split; [exact ok_diffuser|].
  split; [exact ok_notebook_run|].
  intros i Hin Hg.
  assert (Hd : circuit_data 0 (snd (Notebook.run empty_world)) =
               grover_gates ++ [Barrier [0; 1]; Measure 0 0; Measure 1 1])
    by reflexivity.
  rewrite Hd in Hin. simpl in Hin.
  repeat (destruct Hin as [<-|Hin]; [first [discriminate Hg | eexists; reflexivity]|]).
  contradiction.
Qed.

(** C7. The notebook performs no error handling of its own: its functions
    and cells only put SDK calls in sequence, so every exception raised by an
    SDK call they reach comes out to the caller unchanged, with the world as
    the call left it, and every exception that comes out is such a one.  The
    recorded outputs show both errors: the [QiskitError] of an unsupported
    instruction, raised when a statevector is requested for a circuit that
    holds the composite gate [U$_s$] (the gate of the commented-out diffuser
    call, which the notebook as it stands never appends), and the
    [NameError] of an undefined variable, recorded in the checkpoint copy
    under a cell whose source no longer uses that variable. *)
Theorem C7_exceptions_propagate :
  ((forall circuit qubits, handler_free (initialize_s circuit qubits)) /\
   (forall nqubits, handler_free (diffuser nqubits)) /\
   handler_free Notebook.cell_new_circuit /\
   (forall gc, handler_free (Notebook.cell_initialize gc)) /\
   (forall gc, handler_free (Notebook.cell_oracle gc)) /\
   (forall gc, handler_free (Notebook.cell_diffuser gc)) /\
   (forall gc, handler_free (Notebook.cell_diffuser_alternative gc)) /\
   (forall gc, handler_free (Notebook.cell_statevector gc)) /\
   (forall gc, handler_free (Notebook.cell_measure gc)) /\
   handler_free Notebook.run) /\
  (forall (A B : Type) (m : M A) (w : World) (p : M B) (w0 : World) e w',
     reaches m w p w0 ->
     p w0 = (Raise e, w') ->
     sdk_call p /\ m w = (Raise e, w')) /\
  (forall (A : Type) (m : M A) (w : World) e w',
     handler_free m ->
     m w = (Raise e, w') ->
     exists (B : Type) (p : M B) (w0 : World),
       sdk_call p /\ reaches m w p w0 /\ p w0 = (Raise e, w')) /\
  (In (Error "QiskitError") (errors_of transcript) /\
   In (Error "NameError") (errors_of checkpoint_transcript) /\
   transcript_errors = [Error "QiskitError"; Error "NameError"]) /\
  ((exists msg, fst (stale_run empty_world) = Raise (QiskitError msg)) /\
   (exists statevec counts,
      fst (Notebook.run empty_world) = Ok (statevec, counts))) /\
  (fst (Checkpoint.cell_measure "sim" 0 (snd (Notebook.build_circuit empty_world)))
     = Raise (NameError "sim") /\
   exists counts,
     fst (Checkpoint.cell_measure "simulator" 0
            (snd (Notebook.build_circuit empty_world))) = Ok counts).
Proof.
  split; [|split; [|split; [|split; [|split]]]].
  - split; [exact handler_free_initialize_s|].
    split; [exact handler_free_diffuser|].
    split; [apply hf_call; constructor|].
    split; [exact handler_free_cell_initialize|].
    split; [exact handler_free_cell_oracle|].
    split; [exact handler_free_cell_diffuser|].
    split; [exact handler_free_cell_diffuser_alternative|].
    split; [exact handler_free_cell_statevector|].
    split; [exact handler_free_cell_measure | exact handler_free_run].
  - intros A B m w p w0 e w' Hreach Hp. split.
    + eapply reaches_sdk_call, Hreach.
    + eapply reaches_propagates; eauto.
  - intros A m w e w' Hf Hr.
    destruct (handler_free_origin m Hf w e w' Hr) as (B & p & w0 & Hreach & Hp).
    exists B, p, w0. split; [eapply reaches_sdk_call, Hreach|]. split; assumption.
  - split; [simpl; tauto|]. split; [simpl; tauto | reflexivity].
  - split; [eexists; reflexivity|].
    exists grover_state. apply notebook_run_statevector.
  - split; [reflexivity | eexists; reflexivity].
Qed.

Lemma C7_witness :
  reaches (initialize_s 0 [0; 5; 1]%Z) (mkWorld [mkCircuit 2 0 []] [])
          (QC.h 0 (QC.QInt 5))
          (mkWorld [mkCircuit 2 0 [HGate 0]] [Appended 0 (HGate 0)]) /\
  QC.h 0 (QC.QInt 5) (mkWorld [mkCircuit 2 0 [HGate 0]] [Appended 0 (HGate 0)]) =
    (Raise (CircuitError "Index out of range."),
     mkWorld [mkCircuit 2 0 [HGate 0]] [Appended 0 (HGate 0)]) /\
  sdk_call (QC.h 0 (QC.QInt 5)) /\
  initialize_s 0 [0; 5; 1]%Z (mkWorld [mkCircuit 2 0 []] []) =
    (Raise (CircuitError "Index out of range."),
     mkWorld [mkCircuit 2 0 [HGate 0]] [Appended 0 (HGate 0)]).
Proof.
  assert (Hreach :
    reaches (initialize_s 0 [0; 5; 1]%Z) (mkWorld [mkCircuit 2 0 []] [])
            (QC.h 0 (QC.QInt 5))
            (mkWorld [mkCircuit 2 0 [HGate 0]] [Appended 0 (HGate 0)])).
  { unfold initialize_s. apply reaches_first. simpl for_each.
    eapply reaches_next; [reflexivity|].
    apply reaches_first, reaches_call. constructor. }
  split; [exact Hreach|]. split; [reflexivity|].
  apply (proj1 (proj2 C7_exceptions_propagate) ref unit
           (initialize_s 0 [0; 5; 1]%Z) (mkWorld [mkCircuit 2 0 []] [])
           (QC.h 0 (QC.QInt 5))
           (mkWorld [mkCircuit 2 0 [HGate 0]] [Appended 0 (HGate 0)]));
    [exact Hreach | reflexivity].
Defined.

(** C8, as stated: nothing would be appended to the circuit after the first
    simulation call.  The last cell appends the barrier and the
    measurements to [grover_circuit] after the statevector cell has
    simulated. *)
Lemma C8_counterexample :
  ~ (forall e,
       In e (after_first_simulation (trace (snd (Notebook.run empty_world)))) ->
       is_append_to 0 e = false).
Proof.
  intros Hclaim. rewrite notebook_run_trace in Hclaim.
  specialize (Hclaim (Appended 0 (Measure 0 0))).
  simpl in Hclaim. discriminate Hclaim. tauto.
Qed.

(** C8, amended.  The notebook runs as a linear script: the circuit is built
    and the fixed gates are appended (the circuit being drawn after each
    step); a copy that saves its statevector is simulated and the statevector
    displayed; then a barrier and one measurement per qubit are appended to
    the circuit, it is simulated again and the counts are displayed.  No gate
    is appended after the first simulation call. *)
Theorem C8_notebook_is_linear :
  trace (snd (Notebook.run empty_world)) = notebook_trace /\
  (forall e,
     In e (after_first_simulation (trace (snd (Notebook.run empty_world)))) ->
     appends_gate e = false) /\
  after_first_simulation (trace (snd (Notebook.run empty_world))) =
    [Displayed "statevector";
     Appended 0 (Barrier [0; 1]); Appended 0 (Measure 0 0); Appended 0 (Measure 1 1);
     Simulated (grover_gates ++ [Barrier [0; 1]; Measure 0 0; Measure 1 1]);
     Displayed "histogram"].
Proof.
  rewrite notebook_run_trace. split; [reflexivity|]. split; [|reflexivity].
  intros e Hin. simpl in Hin.
  repeat (destruct Hin as [<-|Hin]; [reflexivity|]). contradiction.
Qed.

(** C9. For every [nqubits >= 2] the unitary of the gate returned by
    [diffuser(nqubits)] is an involution: applied twice it gives back every
    statevector exactly. *)
Theorem C9_diffuser_is_an_involution (nqubits : Z) (w : World) :
  (2 <= nqubits)%Z ->
  exists (U_s : Gate) (w' : World),
    diffuser nqubits w = (Ok U_s, w') /\
    forall psi : State, exists psi' : State,
      gate_unitary U_s psi = Some psi' /\
      gate_unitary U_s psi' = Some psi.
Proof.
  intros Hn. pose proof (diffuser_ok nqubits w Hn) as Hd. cbv zeta in Hd.
  eexists _, _. split; [exact Hd|].
  intros psi. exists (diffuser_action (Z.to_nat nqubits) psi).
  unfold gate_unitary. simpl gate_definition.
  rewrite !unitary_diffuser_gates, diffuser_action_involutive by lia.
  split; reflexivity.
Qed.

Lemma C9_witness :
  (2 <= 3)%Z /\
  exists (U_s : Gate) (w' : World),
    diffuser 3 empty_world = (Ok U_s, w') /\
    forall psi : State, exists psi' : State,
      gate_unitary U_s psi = Some psi' /\
      gate_unitary U_s psi' = Some psi.
Proof.
  split; [lia | apply (C9_diffuser_is_an_involution 3 empty_world); lia].
Defined.

(** C10, as stated: the final amplitude of [|11>] would be exactly -1.  It is
    not. *)
Lemma C10_counterexample :
  ~ (forall (statevec : State) (counts : nat -> R),
       fst (Notebook.run empty_world) = Ok (statevec, counts) ->
       statevec 3 = Copp Cone /\
       statevec 0 = Czero /\ statevec 1 = Czero /\ statevec 2 = Czero).
Proof.
  intros Hclaim.
  destruct notebook_run_statevector as (counts & Hrun).
  destruct (Hclaim _ _ Hrun) as (H3 & _).
  destruct grover_state_amps as (_ & _ & _ & H3').
  rewrite H3' in H3. apply (f_equal re) in H3. simpl in H3. lra.
Qed.

(** C10, amended.  The exact final statevector of the notebook's circuit is
    [+|11>]: the amplitude of [|11>] is exactly 1 and the other three are
    exactly 0. *)
Theorem C10_final_statevector_is_plus_11 :
  exists (statevec : State) (counts : nat -> R),
    fst (Notebook.run empty_world) = Ok (statevec, counts) /\
    unitary ([HGate 0; HGate 1] ++ [CZGate 0 1] ++ inline_diffuser_gates) zero_state
      = Some statevec /\
    statevec 3 = Cone /\
    statevec 0 = Czero /\ statevec 1 = Czero /\ statevec 2 = Czero.
Proof.
  destruct notebook_run_statevector as (counts & Hrun).
  destruct grover_state_amps as (H0 & H1 & H2 & H3).
  exists grover_state, counts. repeat split; assumption.
Qed.

(** * Further properties of the notebook's code *)

(** X1. [initialize_s] composes over concatenation: on every store,
    initialising the qubits [qs1 ++ qs2] is initialising [qs1] and then, if
    that returned, [qs2] on the circuit it returned -- exceptions
    included. *)
Theorem X1_initialize_s_app (circuit : ref) (qs1 qs2 : list Z) (w : World) :
  initialize_s circuit (qs1 ++ qs2) w =
    bind (initialize_s circuit qs1) (fun c => initialize_s c qs2) w.
Proof.
  unfold initialize_s, bind. rewrite for_each_app. unfold bind.
  destruct (for_each qs1 _ w) as [[[]|e] w1]; reflexivity.
Qed.

(** X2. An index that is not a qubit of the circuit stops [initialize_s]:
    the SDK's [CircuitError] comes out, the Hadamards of the elements before
    the offending one stay on the circuit, none is appended for the
    elements after it, and no circuit is returned. *)
Theorem X2_initialize_s_stops_at_bad_index
    (w : World) (circuit : ref) (qc : QuantumCircuit)
    (pre : list Z) (q : Z) (post : list Z) (ks : list nat) :
  nth_error (objects w) circuit = Some qc ->
  resolve_qubits (num_qubits qc) pre = Some ks ->
  resolve_qubit (num_qubits qc) q = None ->
  initialize_s circuit (pre ++ q :: post) w =
    (Raise (CircuitError "Index out of range."),
     mkWorld
       (update (objects w) circuit
          (mkCircuit (num_qubits qc) (num_clbits qc) (data qc ++ map HGate ks)))
       (trace w ++ map (Appended circuit) (map HGate ks))).
Proof.
  intros E Hks Hq. unfold initialize_s.
  erewrite bind_raise; [reflexivity|].
  rewrite for_each_app.
  erewrite bind_ok by (eapply (for_each_method_ok HGate); eauto).
  simpl for_each.
  erewrite bind_raise; [|eapply h_int_raises; [eapply appended_lookup; eauto | exact Hq]].
  unfold appended. rewrite E. reflexivity.
Qed.

Lemma X2_witness :
  nth_error (objects (mkWorld [mkCircuit 2 0 []] [])) 0 = Some (mkCircuit 2 0 []) /\
  resolve_qubits (num_qubits (mkCircuit 2 0 [])) [1; 0]%Z = Some [1; 0] /\
  resolve_qubit (num_qubits (mkCircuit 2 0 [])) 2 = None /\
  initialize_s 0 ([1; 0]%Z ++ 2%Z :: [0%Z]) (mkWorld [mkCircuit 2 0 []] []) =
    (Raise (CircuitError "Index out of range."),
     mkWorld
       (update (objects (mkWorld [mkCircuit 2 0 []] [])) 0
          (mkCircuit (num_qubits (mkCircuit 2 0 [])) (num_clbits (mkCircuit 2 0 []))
             (data (mkCircuit 2 0 []) ++ map HGate [1; 0])))
       (trace (mkWorld [mkCircuit 2 0 []] []) ++
        map (Appended 0) (map HGate [1; 0]))).
Proof.
  split; [reflexivity|]. split; [reflexivity|]. split; [reflexivity|].
  apply (X2_initialize_s_stops_at_bad_index
           (mkWorld [mkCircuit 2 0 []] []) 0 (mkCircuit 2 0 [])
           [1; 0]%Z 2%Z [0%Z] [1; 0]); reflexivity.
Defined.

(** X3. [initialize_s] prepares the state its name promises: called on a
    circuit that holds no instruction yet, with all the qubits of the
    circuit in order, it leaves a circuit whose statevector, from the
    all-zero state, is the uniform superposition [|s>] -- every one of the
    [2^n] basis states has amplitude [(1/sqrt 2)^n] and probability
    [1/2^n]. *)
Theorem X3_initialize_s_prepares_uniform_superposition
    (w : World) (circuit : ref) (qc : QuantumCircuit) :
  nth_error (objects w) circuit = Some qc ->
  data qc = [] ->
  exists w',
    initialize_s circuit (range (Z.of_nat (num_qubits qc))) w = (Ok circuit, w') /\
    circuit_data circuit w' = map HGate (seq 0 (num_qubits qc)) /\
    unitary (circuit_data circuit w') zero_state =
      Some (uniform_superposition (num_qubits qc)) /\
    forall i, i < 2 ^ num_qubits qc ->
      uniform_superposition (num_qubits qc) i = RtoC (inv_sqrt2 ^ num_qubits qc) /\
      probability (uniform_superposition (num_qubits qc)) i =
        (/ 2 ^ num_qubits qc)%R.
Proof.
  intros E Hd.
  assert (Hr : resolve_qubits (num_qubits qc) (range (Z.of_nat (num_qubits qc))) =
               Some (seq 0 (num_qubits qc)))
    by (apply resolve_qubits_range; lia).
  eexists. split.
  - unfold initialize_s.
    erewrite bind_ok by (eapply (for_each_method_ok HGate); eauto).
    reflexivity.
  - assert (Hc : circuit_data circuit
                   (appended circuit (map HGate (seq 0 (num_qubits qc))) w) =
                 map HGate (seq 0 (num_qubits qc))).
    { unfold circuit_data. rewrite (appended_lookup _ _ _ _ E). simpl.
      rewrite Hd. reflexivity. }
    rewrite Hc. split; [reflexivity|]. split.
    + rewrite <- h_all_zero_state. apply unitary_map_HGate.
    + intros i Hi. split.
      * unfold uniform_superposition.
        replace (i <? 2 ^ num_qubits qc) with true
          by (symmetry; apply Nat.ltb_lt, Hi).
        reflexivity.
      * apply probability_uniform_superposition, Hi.
Qed.

Lemma X3_witness :
  nth_error (objects (mkWorld [mkCircuit 3 0 []] [])) 0 = Some (mkCircuit 3 0 []) /\
  data (mkCircuit 3 0 []) = [] /\
  exists w',
    initialize_s 0 (range (Z.of_nat (num_qubits (mkCircuit 3 0 []))))
      (mkWorld [mkCircuit 3 0 []] []) = (Ok 0, w') /\
    circuit_data 0 w' = map HGate (seq 0 (num_qubits (mkCircuit 3 0 []))) /\
    unitary (circuit_data 0 w') zero_state =
      Some (uniform_superposition (num_qubits (mkCircuit 3 0 []))) /\
    forall i, i < 2 ^ num_qubits (mkCircuit 3 0 []) ->
      uniform_superposition (num_qubits (mkCircuit 3 0 [])) i =
        RtoC (inv_sqrt2 ^ num_qubits (mkCircuit 3 0 [])) /\
      probability (uniform_superposition (num_qubits (mkCircuit 3 0 []))) i =
        (/ 2 ^ num_qubits (mkCircuit 3 0 []))%R.
Proof.
  split; [reflexivity|]. split; [reflexivity|].
  apply (X3_initialize_s_prepares_uniform_superposition
           (mkWorld [mkCircuit 3 0 []] []) 0 (mkCircuit 3 0 [])); reflexivity.
Defined.

(** X4. Calling [initialize_s] twice with the same qubits undoes it: both
    calls return the circuit, the circuit receives the Hadamards twice, and
    the two layers together act as the identity on every statevector --
    whatever the order of the qubits and even when some are repeated. *)
Theorem X4_initialize_s_twice_is_identity
    (w : World) (circuit : ref) (qc : QuantumCircuit)
    (qubits : list Z) (ks : list nat) :
  nth_error (objects w) circuit = Some qc ->
  resolve_qubits (num_qubits qc) qubits = Some ks ->
  exists w1 w2,
    initialize_s circuit qubits w = (Ok circuit, w1) /\
    initialize_s circuit qubits w1 = (Ok circuit, w2) /\
    circuit_data circuit w2 = data qc ++ map HGate ks ++ map HGate ks /\
    forall psi : State, unitary (map HGate ks ++ map HGate ks) psi = Some psi.
Proof.
  intros E Hks.
  exists (appended circuit (map HGate ks) w),
         (appended circuit (map HGate ks ++ map HGate ks) w).
  split; [|split; [|split]].
  - unfold initialize_s.
    erewrite bind_ok by (eapply (for_each_method_ok HGate); eauto).
    reflexivity.
  - unfold initialize_s.
    erewrite bind_ok
      by (eapply (for_each_method_ok HGate); [eapply appended_lookup|]; eauto).
    rewrite appended_app. reflexivity.
  - unfold circuit_data. rewrite (appended_lookup _ _ _ _ E). reflexivity.
  - intros psi. rewrite unitary_app, !unitary_map_HGate.
    rewrite apply_each_h_involutive. reflexivity.
Qed.

Lemma X4_witness :
  nth_error (objects (mkWorld [mkCircuit 2 0 []] [])) 0 = Some (mkCircuit 2 0 []) /\
  resolve_qubits (num_qubits (mkCircuit 2 0 [])) [1; 0; 1]%Z = Some [1; 0; 1] /\
  exists w1 w2,
    initialize_s 0 [1; 0; 1]%Z (mkWorld [mkCircuit 2 0 []] []) = (Ok 0, w1) /\
    initialize_s 0 [1; 0; 1]%Z w1 = (Ok 0, w2) /\
    circuit_data 0 w2 =
      data (mkCircuit 2 0 []) ++ map HGate [1; 0; 1] ++ map HGate [1; 0; 1] /\
    forall psi : State,
      unitary (map HGate [1; 0; 1] ++ map HGate [1; 0; 1]) psi = Some psi.
Proof.
  split; [reflexivity|]. split; [reflexivity|].
  apply (X4_initialize_s_twice_is_identity
           (mkWorld [mkCircuit 2 0 []] []) 0 (mkCircuit 2 0 [])
           [1; 0; 1]%Z [1; 0; 1]); reflexivity.
Defined.

(** X5. [diffuser] returns a gate only from two qubits on.  Below, the
    SDK's [CircuitError] comes out: a negative size is refused when the
    circuit is created, with no qubit [qc.h(nqubits-1)] has nothing to index,
    and with one qubit the multi-controlled Toffoli is left without a
    control.  No circuit that existed before the call is changed; the
    half-built circuit stays behind in the store. *)
Theorem X5_diffuser_needs_two_qubits (nqubits : Z) (w : World) :
  (nqubits < 2)%Z ->
  exists (msg : string) (w' : World),
    diffuser nqubits w = (Raise (CircuitError msg), w') /\
    firstn (List.length (objects w)) (objects w') = objects w /\
    (objects w' = objects w \/
     objects w' = objects w ++ [mkCircuit 0 0 []] \/
     objects w' = objects w ++ [mkCircuit 1 0 [HGate 0; XGate 0; HGate 0]]).
Proof.
  intros Hn.
  assert (Hcases : (nqubits < 0)%Z \/ nqubits = 0%Z \/ nqubits = 1%Z) by lia.
  destruct Hcases as [Hneg|[->| ->]].
  - eexists _, _. split; [apply diffuser_negative, Hneg|]. split.
    + apply firstn_all.
    + left. reflexivity.
  - eexists _, _. split; [apply diffuser_zero|]. simpl objects. split.
    + apply firstn_length_app.
    + right. left. reflexivity.
  - eexists _, _. split; [apply diffuser_one|]. simpl objects. split.
    + apply firstn_length_app.
    + right. right. reflexivity.
Qed.

Lemma X5_witness :
  (1 < 2)%Z /\
  exists (msg : string) (w' : World),
    diffuser 1 empty_world = (Raise (CircuitError msg), w') /\
    firstn (List.length (objects empty_world)) (objects w') = objects empty_world /\
    (objects w' = objects empty_world \/
     objects w' = objects empty_world ++ [mkCircuit 0 0 []] \/
     objects w' =
       objects empty_world ++ [mkCircuit 1 0 [HGate 0; XGate 0; HGate 0]]).
Proof.
  split; [lia | apply (X5_diffuser_needs_two_qubits 1 empty_world); lia].
Defined.

(** X6. The gate returned by [diffuser(nqubits)], [nqubits >= 2], keeps the
    total probability: for every statevector the squared moduli of the
    [2^nqubits] amplitudes sum to the same value before and after the
    gate. *)
Theorem X6_diffuser_preserves_total_probability (nqubits : Z) (w : World) :
  (2 <= nqubits)%Z ->
  exists (U_s : Gate) (w' : World),
    diffuser nqubits w = (Ok U_s, w') /\
    forall psi : State, exists psi' : State,
      gate_unitary U_s psi = Some psi' /\
      total_probability (Z.to_nat nqubits) psi' =
        total_probability (Z.to_nat nqubits) psi.
Proof.
  intros Hn. pose proof (diffuser_ok nqubits w Hn) as Hd. cbv zeta in Hd.
  eexists _, _. split; [exact Hd|].
  intros psi. exists (diffuser_action (Z.to_nat nqubits) psi). split.
  - unfold gate_unitary. simpl gate_definition. apply unitary_diffuser_gates.
  - apply diffuser_action_total_probability. lia.
Qed.

Lemma X6_witness :
  (2 <= 4)%Z /\
  exists (U_s : Gate) (w' : World),
    diffuser 4 empty_world = (Ok U_s, w') /\
    forall psi : State, exists psi' : State,
      gate_unitary U_s psi = Some psi' /\
      total_probability (Z.to_nat 4) psi' = total_probability (Z.to_nat 4) psi.
Proof.
  split; [lia | apply (X6_diffuser_preserves_total_probability 4 empty_world); lia].
Defined.

(** X7. The gate returned by [diffuser(nqubits)], [nqubits >= 2], is the
    reflection that negates the uniform superposition [|s>] and leaves alone
    every statevector whose amplitudes sum to zero (the states orthogonal to
    [|s>]). *)
Theorem X7_diffuser_reflects_the_uniform_superposition
    (nqubits : Z) (w : World) (psi : State) :
  (2 <= nqubits)%Z ->
  Csum psi (2 ^ Z.to_nat nqubits) = Czero ->
  exists (U_s : Gate) (w' : World) (s' psi' : State),
    diffuser nqubits w = (Ok U_s, w') /\
    gate_unitary U_s (uniform_superposition (Z.to_nat nqubits)) = Some s' /\
    (forall i, i < 2 ^ Z.to_nat nqubits ->
       s' i = Copp (uniform_superposition (Z.to_nat nqubits) i)) /\
    gate_unitary U_s psi = Some psi' /\
    (forall i, i < 2 ^ Z.to_nat nqubits -> psi' i = psi i).
Proof.
  intros Hn Hsum. pose proof (diffuser_ok nqubits w Hn) as Hd. cbv zeta in Hd.
  set (n := Z.to_nat nqubits) in *.
  assert (Hn1 : 1 <= n) by (unfold n; lia).
  exists (mkGate "U$_s$" n (diffuser_gates n)).
  eexists.
  exists (diffuser_action n (uniform_superposition n)), (diffuser_action n psi).
  split; [exact Hd|].
  unfold gate_unitary. simpl gate_definition.
  rewrite !unitary_diffuser_gates.
  split; [reflexivity|]. split; [|split; [reflexivity|]].
  - intros i Hi. rewrite diffuser_action_minus_mean by assumption.
    rewrite mean_uniform_superposition. unfold uniform_superposition.
    replace (i <? 2 ^ n) with true by (symmetry; apply Nat.ltb_lt, Hi).
    csolve.
  - intros i Hi. rewrite diffuser_action_minus_mean by assumption.
    unfold mean. rewrite Hsum. csolve.
Qed.

Lemma X7_witness :
  (2 <= 2)%Z /\
  Csum (fun i => if Nat.eqb i 0 then Cone else if Nat.eqb i 3 then Copp Cone else Czero)
       (2 ^ Z.to_nat 2) = Czero /\
  exists (U_s : Gate) (w' : World) (s' psi' : State),
    diffuser 2 empty_world = (Ok U_s, w') /\
    gate_unitary U_s (uniform_superposition (Z.to_nat 2)) = Some s' /\
    (forall i, i < 2 ^ Z.to_nat 2 ->
       s' i = Copp (uniform_superposition (Z.to_nat 2) i)) /\
    gate_unitary U_s
      (fun i => if Nat.eqb i 0 then Cone else if Nat.eqb i 3 then Copp Cone else Czero)
      = Some psi' /\
    (forall i, i < 2 ^ Z.to_nat 2 ->
       psi' i =
         (fun i => if Nat.eqb i 0 then Cone else if Nat.eqb i 3 then Copp Cone else Czero)
           i).
Proof.
  assert (Hsum :
    Csum (fun i => if Nat.eqb i 0 then Cone else if Nat.eqb i 3 then Copp Cone else Czero)
         (2 ^ Z.to_nat 2) = Czero)
    by (simpl; apply C_ext; simpl; lra).
  split; [lia|]. split; [exact Hsum|].
  apply (X7_diffuser_reflects_the_uniform_superposition 2 empty_world
           (fun i => if Nat.eqb i 0 then Cone
                     else if Nat.eqb i 3 then Copp Cone else Czero));
    [lia | exact Hsum].
Defined.

(** X8. On a circuit of standard gates the statevector cell returns the
    statevector the gates produce from the all-zero state, and it works on a
    copy: the circuit it was given stays exactly as it was, and the store
    only gains the copy, which ends with the save instruction. *)
Theorem X8_cell_statevector_on_a_copy
    (w : World) (grover_circuit : ref) (qc : QuantumCircuit) (psi : State) :
  nth_error (objects w) grover_circuit = Some qc ->
  unitary (data qc) zero_state = Some psi ->
  exists w',
    Notebook.cell_statevector grover_circuit w = (Ok psi, w') /\
    objects w' =
      objects w ++
      [mkCircuit (num_qubits qc) (num_clbits qc) (data qc ++ [SaveStatevector])] /\
    nth_error (objects w') grover_circuit = Some qc /\
    trace w' =
      trace w ++
      [Appended (List.length (objects w)) SaveStatevector;
       Simulated (data qc ++ [SaveStatevector]);
       Displayed "statevector"].
Proof.
  intros E Hu. pose proof (cell_statevector_run _ _ _ E) as Hrun.
  cbv zeta in Hrun. rewrite (execute_unitary _ _ _ _ _ Hu) in Hrun.
  eexists. split; [exact Hrun|]. simpl.
  split; [reflexivity|]. split.
  - apply nth_error_app_old, E.
  - rewrite <- app_assoc. reflexivity.
Qed.

Lemma X8_witness :
  nth_error (objects (mkWorld [mkCircuit 2 0 [XGate 0; CZGate 0 1]] [])) 0 =
    Some (mkCircuit 2 0 [XGate 0; CZGate 0 1]) /\
  unitary (data (mkCircuit 2 0 [XGate 0; CZGate 0 1])) zero_state =
    Some (apply_cz 0 1 (apply_x 0 zero_state)) /\
  exists w',
    Notebook.cell_statevector 0 (mkWorld [mkCircuit 2 0 [XGate 0; CZGate 0 1]] []) =
      (Ok (apply_cz 0 1 (apply_x 0 zero_state)), w') /\
    objects w' =
      objects (mkWorld [mkCircuit 2 0 [XGate 0; CZGate 0 1]] []) ++
      [mkCircuit (num_qubits (mkCircuit 2 0 [XGate 0; CZGate 0 1]))
         (num_clbits (mkCircuit 2 0 [XGate 0; CZGate 0 1]))
         (data (mkCircuit 2 0 [XGate 0; CZGate 0 1]) ++ [SaveStatevector])] /\
    nth_error (objects w') 0 = Some (mkCircuit 2 0 [XGate 0; CZGate 0 1]) /\
    trace w' =
      trace (mkWorld [mkCircuit 2 0 [XGate 0; CZGate 0 1]] []) ++
      [Appended (List.length (objects (mkWorld [mkCircuit 2 0 [XGate 0; CZGate 0 1]] [])))
         SaveStatevector;
       Simulated (data (mkCircuit 2 0 [XGate 0; CZGate 0 1]) ++ [SaveStatevector]);
       Displayed "statevector"].
Proof.
  split; [reflexivity|]. split; [reflexivity|].
  apply (X8_cell_statevector_on_a_copy
           (mkWorld [mkCircuit 2 0 [XGate 0; CZGate 0 1]] []) 0
           (mkCircuit 2 0 [XGate 0; CZGate 0 1])
           (apply_cz 0 1 (apply_x 0 zero_state))); reflexivity.
Defined.

(** X9. A circuit that holds the composite gate [U$_s$], the gate [diffuser]
    returns, is not simulated as it stands: wherever the gate sits in the
    circuit and whatever else the circuit holds, the statevector cell raises
    the simulator's [QiskitError], after the copy was made and run.  The
    circuit it was given is unchanged and the copy stays behind in the
    store. *)
Theorem X9_cell_statevector_fails_on_the_diffuser_gate
    (w : World) (grover_circuit : ref) (qc : QuantumCircuit)
    (definition : list Instruction) (qargs : list nat) :
  nth_error (objects w) grover_circuit = Some qc ->
  In (CustomGate "U$_s$" definition qargs) (data qc) ->
  exists msg w',
    Notebook.cell_statevector grover_circuit w = (Raise (QiskitError msg), w') /\
    nth_error (objects w') grover_circuit = Some qc /\
    objects w' =
      objects w ++
      [mkCircuit (num_qubits qc) (num_clbits qc) (data qc ++ [SaveStatevector])].
Proof.
  intros E Hin. pose proof (cell_statevector_run _ _ _ E) as Hrun.
  cbv zeta in Hrun.
  assert (Hc : existsb is_custom (data qc) = true).
  { apply existsb_exists. eexists. split; [exact Hin | reflexivity]. }
  apply (execute_none_iff (data qc) (mkSim zero_state None None)) in Hc.
  rewrite Hc in Hrun.
  eexists _, _. split; [exact Hrun|]. simpl. split.
  - apply nth_error_app_old, E.
  - reflexivity.
Qed.

Lemma X9_witness :
  nth_error
    (objects (mkWorld [mkCircuit 2 0 [HGate 0; CustomGate "U$_s$" [XGate 0] [1]]] []))
    0 = Some (mkCircuit 2 0 [HGate 0; CustomGate "U$_s$" [XGate 0] [1]]) /\
  In (CustomGate "U$_s$" [XGate 0] [1])
     (data (mkCircuit 2 0 [HGate 0; CustomGate "U$_s$" [XGate 0] [1]])) /\
  exists msg w',
    Notebook.cell_statevector 0
      (mkWorld [mkCircuit 2 0 [HGate 0; CustomGate "U$_s$" [XGate 0] [1]]] []) =
      (Raise (QiskitError msg), w') /\
    nth_error (objects w') 0 =
      Some (mkCircuit 2 0 [HGate 0; CustomGate "U$_s$" [XGate 0] [1]]) /\
    objects w' =
      objects (mkWorld [mkCircuit 2 0 [HGate 0; CustomGate "U$_s$" [XGate 0] [1]]] []) ++
      [mkCircuit (num_qubits (mkCircuit 2 0 [HGate 0; CustomGate "U$_s$" [XGate 0] [1]]))
         (num_clbits (mkCircuit 2 0 [HGate 0; CustomGate "U$_s$" [XGate 0] [1]]))
         (data (mkCircuit 2 0 [HGate 0; CustomGate "U$_s$" [XGate 0] [1]]) ++
          [SaveStatevector])].
Proof.
  assert (Hin : In (CustomGate "U$_s$" [XGate 0] [1])
                  (data (mkCircuit 2 0 [HGate 0; CustomGate "U$_s$" [XGate 0] [1]])))
    by (simpl; right; left; reflexivity).
  split; [reflexivity|]. split; [exact Hin|].
  apply (X9_cell_statevector_fails_on_the_diffuser_gate
           (mkWorld [mkCircuit 2 0 [HGate 0; CustomGate "U$_s$" [XGate 0] [1]]] []) 0
           (mkCircuit 2 0 [HGate 0; CustomGate "U$_s$" [XGate 0] [1]])
           [XGate 0] [1]); [reflexivity | exact Hin].
Defined.



(** X11. The diffuser cell, on a two-qubit circuit, appends its seven gates
    and these act as the inversion about the mean [2|s><s| - I] itself, with
    no phase factor: every amplitude becomes twice the mean minus itself. *)
Theorem X11_inline_diffuser_is_the_inversion_about_the_mean
    (w : World) (grover_circuit : ref) (qc : QuantumCircuit) :
  nth_error (objects w) grover_circuit = Some qc ->
  num_qubits qc = 2 ->
  exists w1,
    Notebook.cell_diffuser grover_circuit w = (Ok tt, w1) /\
    circuit_data grover_circuit w1 = data qc ++ inline_diffuser_gates /\
    forall psi : State, exists psi' : State,
      unitary inline_diffuser_gates psi = Some psi' /\
      forall i, i < 4 ->
        psi' i = inversion_about_mean 2 psi i /\
        psi' i = Cminus (Cscale 2 (mean 2 psi)) (psi i).
Proof.
  intros E Hn.
  destruct (cell_diffuser_ok _ _ _ E Hn) as (w1 & Hrun & Hdata).
  exists w1. split; [exact Hrun|]. split; [exact Hdata|].
  intros psi. exists (inline_diffuser_action psi). split; [reflexivity|].
  intros i Hi. split.
  - apply inline_diffuser_action_inversion, Hi.
  - rewrite inline_diffuser_action_inversion by exact Hi.
    apply inversion_about_mean_eval. simpl. lia.
Qed.

Lemma X11_witness :
  nth_error (objects (mkWorld [mkCircuit 2 0 []] [])) 0 = Some (mkCircuit 2 0 []) /\
  num_qubits (mkCircuit 2 0 []) = 2 /\
  exists w1,
    Notebook.cell_diffuser 0 (mkWorld [mkCircuit 2 0 []] []) = (Ok tt, w1) /\
    circuit_data 0 w1 = data (mkCircuit 2 0 []) ++ inline_diffuser_gates /\
    forall psi : State, exists psi' : State,
      unitary inline_diffuser_gates psi = Some psi' /\
      forall i, i < 4 ->
        psi' i = inversion_about_mean 2 psi i /\
        psi' i = Cminus (Cscale 2 (mean 2 psi)) (psi i).
Proof.
  split; [reflexivity|]. split; [reflexivity|].
  apply (X11_inline_diffuser_is_the_inversion_about_the_mean
           (mkWorld [mkCircuit 2 0 []] []) 0 (mkCircuit 2 0 [])); reflexivity.
Defined.

(** X12. Running the diffuser cell a second time undoes the first: the
    circuit then holds the seven gates twice, and the fourteen gates together
    act as the identity on every statevector. *)
Theorem X12_diffuser_cell_twice_is_identity
    (w : World) (grover_circuit : ref) (qc : QuantumCircuit) :
  nth_error (objects w) grover_circuit = Some qc ->
  num_qubits qc = 2 ->
  exists w1 w2,
    Notebook.cell_diffuser grover_circuit w = (Ok tt, w1) /\
    Notebook.cell_diffuser grover_circuit w1 = (Ok tt, w2) /\
    circuit_data grover_circuit w2 =
      data qc ++ inline_diffuser_gates ++ inline_diffuser_gates /\
    forall psi : State,
      unitary (inline_diffuser_gates ++ inline_diffuser_gates) psi = Some psi.
Proof.
  intros E Hn.
  pose proof (cell_diffuser_run _ _ _ E Hn) as H1.
  set (w1 := mkWorld (objects (appended grover_circuit inline_diffuser_gates w))
               (trace (appended grover_circuit inline_diffuser_gates w) ++
                [Displayed "circuit"])) in *.
  assert (E1 : nth_error (objects w1) grover_circuit =
               Some (mkCircuit (num_qubits qc) (num_clbits qc)
                       (data qc ++ inline_diffuser_gates)))
    by (apply appended_lookup, E).
  pose proof (cell_diffuser_run _ _ _ E1 Hn) as H2.
  eexists _, _. split; [exact H1|]. split; [exact H2|]. split.
  - unfold circuit_data. simpl objects.
    rewrite (appended_lookup _ _ _ _ E1). simpl. rewrite <- app_assoc. reflexivity.
  - intros psi. rewrite unitary_app.
    change (unitary inline_diffuser_gates psi) with (Some (inline_diffuser_action psi)).
    cbv beta iota.
    change (unitary inline_diffuser_gates (inline_diffuser_action psi))
      with (Some (inline_diffuser_action (inline_diffuser_action psi))).
    rewrite inline_diffuser_action_involutive. reflexivity.
Qed.

Lemma X12_witness :
  nth_error (objects (mkWorld [mkCircuit 2 0 [HGate 0]] [])) 0 =
    Some (mkCircuit 2 0 [HGate 0]) /\
  num_qubits (mkCircuit 2 0 [HGate 0]) = 2 /\
  exists w1 w2,
    Notebook.cell_diffuser 0 (mkWorld [mkCircuit 2 0 [HGate 0]] []) = (Ok tt, w1) /\
    Notebook.cell_diffuser 0 w1 = (Ok tt, w2) /\
    circuit_data 0 w2 =
      data (mkCircuit 2 0 [HGate 0]) ++ inline_diffuser_gates ++ inline_diffuser_gates /\
    forall psi : State,
      unitary (inline_diffuser_gates ++ inline_diffuser_gates) psi = Some psi.
Proof.
  split; [reflexivity|]. split; [reflexivity|].
  apply (X12_diffuser_cell_twice_is_identity
           (mkWorld [mkCircuit 2 0 [HGate 0]] []) 0 (mkCircuit 2 0 [HGate 0]));
    reflexivity.
Defined.

(** X13. The notebook's closing statement, that the measurement gives
    [|11>] 100% of the time: run top to bottom, the last cell's counts are
    the distribution of the very state the statevector cell returned, with
    probability 1 on [|11>] and 0 on the three other outcomes. *)
Theorem X13_notebook_counts_are_all_11 :
  exists (statevec : State) (counts : nat -> R),
    fst (Notebook.run empty_world) = Ok (statevec, counts) /\
    counts = probability statevec /\
    counts 3 = 1%R /\ counts 0 = 0%R /\ counts 1 = 0%R /\ counts 2 = 0%R.
Proof.
  exists grover_state, (probability grover_state).
  destruct grover_state_amps as (H0 & H1 & H2 & H3).
  split; [apply notebook_run_result|]. split; [reflexivity|].
  unfold probability. rewrite H0, H1, H2, H3.
  repeat split; camp_unfold; ring.
Qed.

(** X14. [initialize_s] never excites a qubit it was not asked to: after it,
    from the all-zero state, every amplitude in which a qubit outside the
    list is set is 0, so such a qubit still measures 0 with certainty. *)
Theorem X14_initialize_s_leaves_other_qubits_clear
    (w : World) (circuit : ref) (qc : QuantumCircuit)
    (qubits : list Z) (ks : list nat) (q : nat) :
  nth_error (objects w) circuit = Some qc ->
  data qc = [] ->
  resolve_qubits (num_qubits qc) qubits = Some ks ->
  ~ In q ks ->
  exists w' psi,
    initialize_s circuit qubits w = (Ok circuit, w') /\
    unitary (circuit_data circuit w') zero_state = Some psi /\
    forall i, Nat.testbit i q = true -> psi i = Czero /\ probability psi i = 0%R.
Proof.
  intros E Hd Hks Hq.
  exists (appended circuit (map HGate ks) w), (apply_each apply_h ks zero_state).
  split; [|split].
  - unfold initialize_s.
    erewrite bind_ok by (eapply (for_each_method_ok HGate); eauto).
    reflexivity.
  - unfold circuit_data. rewrite (appended_lookup _ _ _ _ E). simpl.
    rewrite Hd. apply unitary_map_HGate.
  - intros i Hi.
    assert (Hz : apply_each apply_h ks zero_state i = Czero).
    { apply (apply_each_h_keeps_clear q ks zero_state Hq); [|exact Hi].
      intros j Hj. unfold zero_state, basis_state.
      destruct (Nat.eqb_spec j 0) as [->|_]; [|reflexivity].
      rewrite Nat.bits_0 in Hj. discriminate Hj. }
    split; [exact Hz|]. unfold probability. rewrite Hz. camp_unfold. ring.
Qed.

Lemma X14_witness :
  nth_error (objects (mkWorld [mkCircuit 3 0 []] [])) 0 = Some (mkCircuit 3 0 []) /\
  data (mkCircuit 3 0 []) = [] /\
  resolve_qubits (num_qubits (mkCircuit 3 0 [])) [0; 2]%Z = Some [0; 2] /\
  ~ In 1 [0; 2] /\
  exists w' psi,
    initialize_s 0 [0; 2]%Z (mkWorld [mkCircuit 3 0 []] []) = (Ok 0, w') /\
    unitary (circuit_data 0 w') zero_state = Some psi /\
    forall i, Nat.testbit i 1 = true -> psi i = Czero /\ probability psi i = 0%R.
Proof.
  assert (Hq : ~ In 1 [0; 2]) by (simpl; intros [H|[H|[]]]; discriminate H).
  split; [reflexivity|]. split; [reflexivity|]. split; [reflexivity|].
  split; [exact Hq|].
  apply (X14_initialize_s_leaves_other_qubits_clear
           (mkWorld [mkCircuit 3 0 []] []) 0 (mkCircuit 3 0 []) [0; 2]%Z [0; 2] 1);
    [reflexivity | reflexivity | reflexivity | exact Hq].
Defined.

(** X15. The oracle cell marks by phase only: on a two-qubit circuit it
    appends CZ(0,1), which changes no measurement probability of any
    statevector at any basis state, and which undoes itself when applied a
    second time. *)
Theorem X15_oracle_is_invisible_to_a_measurement
    (w : World) (grover_circuit : ref) (qc : QuantumCircuit) :
  nth_error (objects w) grover_circuit = Some qc ->
  num_qubits qc = 2 ->
  exists w',
    Notebook.cell_oracle grover_circuit w = (Ok tt, w') /\
    circuit_data grover_circuit w' = data qc ++ [CZGate 0 1] /\
    forall psi : State, exists psi' : State,
      unitary [CZGate 0 1] psi = Some psi' /\
      (forall i, probability psi' i = probability psi i) /\
      unitary [CZGate 0 1] psi' = Some psi.
Proof.
  intros E Hn.
  destruct (cell_oracle_ok _ _ _ E Hn) as (w' & Hrun & Hdata).
  exists w'. split; [exact Hrun|]. split; [exact Hdata|].
  intros psi. exists (apply_cz 0 1 psi). split; [reflexivity|]. split.
  - intros i. apply probability_apply_cz.
  - simpl. rewrite apply_cz_involutive. reflexivity.
Qed.

Lemma X15_witness :
  nth_error (objects (mkWorld [mkCircuit 2 0 [HGate 0; HGate 1]] [])) 0 =
    Some (mkCircuit 2 0 [HGate 0; HGate 1]) /\
  num_qubits (mkCircuit 2 0 [HGate 0; HGate 1]) = 2 /\
  exists w',
    Notebook.cell_oracle 0 (mkWorld [mkCircuit 2 0 [HGate 0; HGate 1]] []) =
      (Ok tt, w') /\
    circuit_data 0 w' = data (mkCircuit 2 0 [HGate 0; HGate 1]) ++ [CZGate 0 1] /\
    forall psi : State, exists psi' : State,
      unitary [CZGate 0 1] psi = Some psi' /\
      (forall i, probability psi' i = probability psi i) /\
      unitary [CZGate 0 1] psi' = Some psi.
Proof.
  split; [reflexivity|]. split; [reflexivity|].
  apply (X15_oracle_is_invisible_to_a_measurement
           (mkWorld [mkCircuit 2 0 [HGate 0; HGate 1]] []) 0
           (mkCircuit 2 0 [HGate 0; HGate 1])); reflexivity.
Defined.

(** X16. The order of the list given to [initialize_s] decides the order of
    the appended Hadamards but not the state: two lists that are
    permutations of each other append gate lists with the same unitary. *)
Theorem X16_initialize_s_order_is_irrelevant
    (w : World) (circuit : ref) (qc : QuantumCircuit)
    (qubits qubits' : list Z) (ks ks' : list nat) :
  nth_error (objects w) circuit = Some qc ->
  resolve_qubits (num_qubits qc) qubits = Some ks ->
  resolve_qubits (num_qubits qc) qubits' = Some ks' ->
  Permutation ks ks' ->
  exists w1 w1',
    initialize_s circuit qubits w = (Ok circuit, w1) /\
    initialize_s circuit qubits' w = (Ok circuit, w1') /\
    circuit_data circuit w1 = data qc ++ map HGate ks /\
    circuit_data circuit w1' = data qc ++ map HGate ks' /\
    forall psi : State,
      unitary (map HGate ks) psi = unitary (map HGate ks') psi.
Proof.
  intros E Hks Hks' Hperm.
  exists (appended circuit (map HGate ks) w), (appended circuit (map HGate ks') w).
  split; [|split; [|split; [|split]]].
  - unfold initialize_s.
    erewrite bind_ok by (eapply (for_each_method_ok HGate); eauto).
    reflexivity.
  - unfold initialize_s.
    erewrite bind_ok by (eapply (for_each_method_ok HGate); eauto).
    reflexivity.
  - unfold circuit_data. rewrite (appended_lookup _ _ _ _ E). reflexivity.
  - unfold circuit_data. rewrite (appended_lookup _ _ _ _ E). reflexivity.
  - intros psi. rewrite !unitary_map_HGate. f_equal.
    apply apply_each_h_permutation, Hperm.
Qed.

Lemma X16_witness :
  nth_error (objects (mkWorld [mkCircuit 2 0 []] [])) 0 = Some (mkCircuit 2 0 []) /\
  resolve_qubits (num_qubits (mkCircuit 2 0 [])) [0; 1]%Z = Some [0; 1] /\
  resolve_qubits (num_qubits (mkCircuit 2 0 [])) [1; 0]%Z = Some [1; 0] /\
  Permutation [0; 1] [1; 0] /\
  exists w1 w1',
    initialize_s 0 [0; 1]%Z (mkWorld [mkCircuit 2 0 []] []) = (Ok 0, w1) /\
    initialize_s 0 [1; 0]%Z (mkWorld [mkCircuit 2 0 []] []) = (Ok 0, w1') /\
    circuit_data 0 w1 = data (mkCircuit 2 0 []) ++ map HGate [0; 1] /\
    circuit_data 0 w1' = data (mkCircuit 2 0 []) ++ map HGate [1; 0] /\
    forall psi : State,
      unitary (map HGate [0; 1]) psi = unitary (map HGate [1; 0]) psi.
Proof.
  split; [reflexivity|]. split; [reflexivity|]. split; [reflexivity|].
  split; [apply perm_swap|].
  apply (X16_initialize_s_order_is_irrelevant
           (mkWorld [mkCircuit 2 0 []] []) 0 (mkCircuit 2 0 [])
           [0; 1]%Z [1; 0]%Z [0; 1] [1; 0]);
    [reflexivity | reflexivity | reflexivity | apply perm_swap].
Defined.
